(** * A hash-linked ledger with proof-of-work admission (main.go)

    Shallow embedding of the ledger core of [main.go]: the block and
    transaction records, [calculateHash], the mining loop of
    [generateBlock], the predicates [isHashValid], [isBlockValid] and
    [isTransactionValid], the genesis construction and the request
    handlers that mutate the global [Blockchain].

    Conventions.
    - Go's [int] is the 64-bit two's-complement integer of the usual
      targets: a [Z] with the wrap-around of [+] written out ([int_add]).
    - Go's [string] is a byte sequence: Rocq's [string].
    - [time.Now().String()] is an input of the functions that call it.
    - The global [Blockchain] is passed to the functions that read it and
      returned by those that append to it.
    - The unbounded [for] loop of the miner takes fuel; running out of
      fuel is the outcome [OutOfFuel], a run-time panic is [Panic].
    - [crypto/sha256], [encoding/hex], [strconv.Itoa] and [fmt.Sprint]
      are library code: they are written out here (FIPS 180-4 for the
      digest) so that every definition computes.

    The definitions come first, then the vocabulary of the statements,
    the lemmas, and the claims in their order. *)

From Stdlib Require Import ZArith List String Ascii Bool Lia.
Import ListNotations.
Local Open Scope Z_scope.

(** ** crypto/sha256 and encoding/hex *)

Module Sha256.

Definition mask32 : Z := 0xFFFFFFFF.

Definition add32 (x y : Z) : Z := Z.land (x + y) mask32.

Definition rotr (n x : Z) : Z :=
  Z.land (Z.lor (Z.shiftr x n) (Z.shiftl x (32 - n))) mask32.

Definition shr (n x : Z) : Z := Z.shiftr x n.

Definition not32 (x : Z) : Z := Z.lxor x mask32.

Definition Ch (x y z : Z) : Z :=
  Z.lxor (Z.land x y) (Z.land (not32 x) z).

Definition Maj (x y z : Z) : Z :=
  Z.lxor (Z.lxor (Z.land x y) (Z.land x z)) (Z.land y z).

Definition bsig0 (x : Z) : Z :=
  Z.lxor (Z.lxor (rotr 2 x) (rotr 13 x)) (rotr 22 x).

Definition bsig1 (x : Z) : Z :=
  Z.lxor (Z.lxor (rotr 6 x) (rotr 11 x)) (rotr 25 x).

Definition ssig0 (x : Z) : Z :=
  Z.lxor (Z.lxor (rotr 7 x) (rotr 18 x)) (shr 3 x).

Definition ssig1 (x : Z) : Z :=
  Z.lxor (Z.lxor (rotr 17 x) (rotr 19 x)) (shr 10 x).

(** The constants are derived as FIPS 180-4 defines them, from the
    first sixty-four primes. *)
Definition is_prime (n : nat) : bool :=
  forallb (fun d => negb (Nat.eqb (Nat.modulo n d) 0)) (seq 2 (n - 2)).

Definition primes : list Z :=
  map Z.of_nat (filter is_prime (seq 2 310)).

(** Integer cube root, bit by bit from bit [bit - 1] down. *)
Fixpoint cube_root (bit : nat) (n r : Z) : Z :=
  match bit with
  | O => r
  | S bit' =>
      let c := r + Z.shiftl 1 (Z.of_nat bit') in
      cube_root bit' n (if c * c * c <=? n then c else r)
  end.

(** The first 32 bits of the fractional part of a prime's cube root,
    and of its square root. *)
Definition cube_root_fraction (p : Z) : Z :=
  Z.land (cube_root 36 (Z.shiftl p 96) 0) mask32.

Definition square_root_fraction (p : Z) : Z :=
  Z.land (Z.sqrt (Z.shiftl p 64)) mask32.

(** The 64 round constants. *)
Definition K : list Z := Eval vm_compute in map cube_root_fraction primes.

(** The eight working variables, also the running digest. *)
Record state : Type := mkState {
  sa : Z; sb : Z; sc : Z; sd : Z; se : Z; sf : Z; sg : Z; sh : Z
}.

(** The initial digest: the square-root fractions of the first eight
    primes. *)
Definition init : state :=
  Eval vm_compute in
    let h := fun i => square_root_fraction (nth i primes 0) in
    mkState (h 0%nat) (h 1%nat) (h 2%nat) (h 3%nat)
            (h 4%nat) (h 5%nat) (h 6%nat) (h 7%nat).

Definition round (k w : Z) (s : state) : state :=
  let t1 := add32 (add32 (add32 (add32 (sh s) (bsig1 (se s)))
                                (Ch (se s) (sf s) (sg s))) k) w in
  let t2 := add32 (bsig0 (sa s)) (Maj (sa s) (sb s) (sc s)) in
  mkState (add32 t1 t2) (sa s) (sb s) (sc s)
          (add32 (sd s) t1) (se s) (sf s) (sg s).

(** The message schedule as a window of the last sixteen words, oldest
    first: its head is the word of the current round. *)
Definition next_word (win : list Z) : Z :=
  add32 (add32 (add32 (ssig1 (nth 14 win 0)) (nth 9 win 0))
               (ssig0 (nth 1 win 0)))
        (nth 0 win 0).

Fixpoint rounds (ks win : list Z) (s : state) : state :=
  match ks with
  | [] => s
  | k :: ks' =>
      rounds ks' (tl win ++ [next_word win]) (round k (hd 0 win) s)
  end.

Definition add_state (s t : state) : state :=
  mkState (add32 (sa s) (sa t)) (add32 (sb s) (sb t))
          (add32 (sc s) (sc t)) (add32 (sd s) (sd t))
          (add32 (se s) (se t)) (add32 (sf s) (sf t))
          (add32 (sg s) (sg t)) (add32 (sh s) (sh t)).

(** Big-endian words of a 64-byte block. *)
Fixpoint words (n : nat) (bs : list Z) : list Z :=
  match n with
  | O => []
  | S n' =>
      match bs with
      | b0 :: b1 :: b2 :: b3 :: rest =>
          Z.lor (Z.shiftl b0 24)
                (Z.lor (Z.shiftl b1 16) (Z.lor (Z.shiftl b2 8) b3))
          :: words n' rest
      | _ => []
      end
  end.

Definition compress (s : state) (blk : list Z) : state :=
  add_state s (rounds K (words 16 blk) s).

Fixpoint blocks (n : nat) (bs : list Z) (s : state) : state :=
  match n with
  | O => s
  | S n' => blocks n' (skipn 64 bs) (compress s (firstn 64 bs))
  end.

Definition be_bytes (width : nat) (x : Z) : list Z :=
  map (fun i => Z.land (Z.shiftr x (8 * Z.of_nat i)) 255)
      (rev (seq 0 width)).

(** Padding: the bit 1, zeros up to 56 modulo 64, the length in bits. *)
Definition pad (msg : list Z) : list Z :=
  let len := Z.of_nat (List.length msg) in
  msg ++ [0x80]
      ++ repeat 0 (Z.to_nat ((55 - len) mod 64))
      ++ be_bytes 8 (Z.land (8 * len) 0xFFFFFFFFFFFFFFFF).

Definition output (s : state) : list Z :=
  flat_map (be_bytes 4)
           [sa s; sb s; sc s; sd s; se s; sf s; sg s; sh s].

(** [h := sha256.New(); h.Write(msg); h.Sum(nil)] *)
Definition Sum (msg : list Z) : list Z :=
  let p := pad msg in
  output (blocks (List.length p / 64)%nat p init).

End Sha256.

Module Hex.

Definition digit (d : Z) : ascii :=
  ascii_of_nat (Z.to_nat (if d <? 10 then 48 + d else 87 + d)).

(** [hex.EncodeToString]: two lowercase digits per byte. *)
Fixpoint EncodeToString (bs : list Z) : string :=
  match bs with
  | [] => EmptyString
  | b :: rest =>
      String (digit (Z.shiftr b 4))
             (String (digit (Z.land b 15)) (EncodeToString rest))
  end.

End Hex.

Local Open Scope string_scope.

(** [[]byte(s)] *)
Definition bytes_of_string (s : string) : list Z :=
  map (fun c => Z.of_nat (nat_of_ascii c)) (list_ascii_of_string s).

Definition sha256_hex (s : string) : string :=
  Hex.EncodeToString (Sha256.Sum (bytes_of_string s)).

Arguments sha256_hex : simpl never.

(** ** Go's [int], [strconv.Itoa] and [fmt.Sprint] *)

Definition int_min : Z := - 2 ^ 63.
Definition int_max : Z := 2 ^ 63 - 1.

(** Two's-complement wrap-around of a 64-bit [int]. *)
Definition int_wrap (z : Z) : Z := (z + 2 ^ 63) mod 2 ^ 64 - 2 ^ 63.

Definition int_add (x y : Z) : Z := int_wrap (x + y).

Fixpoint digits (fuel : nat) (n : Z) (acc : string) : string :=
  match fuel with
  | O => acc
  | S fuel' =>
      let acc' := String (ascii_of_nat (Z.to_nat (48 + n mod 10))) acc in
      if (n <? 10)%Z then acc' else digits fuel' (n / 10) acc'
  end.

(** [strconv.Itoa]: an [int] has at most nineteen decimal digits. *)
Definition Itoa (i : Z) : string :=
  if (i <? 0)%Z then String "-" (digits 20 (- i) "") else digits 20 i "".

(** The line feed that [http.Error] and the handler's format end with. *)
Definition nl : string := String "010" "".

(** ** The data model *)

Definition port : string := "8080".
Definition difficulty : Z := 1.
Definition reward : Z := 1.

Record Transaction : Type := mkTransaction {
  Sender : string;
  Receiver : string;
  Amount : Z
}.

Record Block : Type := mkBlock {
  Index : Z;
  Timestamp : string;
  Transactions : list Transaction;
  PrevHash : string;
  Hash : string;
  Nonce : string;
  Difficulty : Z
}.

(** [Block{}] *)
Definition zeroBlock : Block := mkBlock 0 "" [] "" "" "" 0.

(** [b.Nonce = v] and [b.Hash = v] on a block held by value. *)
Definition set_Nonce (v : string) (b : Block) : Block :=
  mkBlock (Index b) (Timestamp b) (Transactions b) (PrevHash b) (Hash b) v
          (Difficulty b).

Definition set_Hash (v : string) (b : Block) : Block :=
  mkBlock (Index b) (Timestamp b) (Transactions b) (PrevHash b) v (Nonce b)
          (Difficulty b).

(** [fmt.Sprint] of a [Transaction] ([%v] of a struct: its fields in
    braces, separated by spaces) and of a [[]Transaction] (the elements
    in brackets, separated by spaces; a nil slice prints as [[]]). *)
Definition Sprint_Transaction (t : Transaction) : string :=
  "{" ++ Sender t ++ " " ++ Receiver t ++ " " ++ Itoa (Amount t) ++ "}".

Fixpoint Sprint_elements (ts : list Transaction) : string :=
  match ts with
  | [] => ""
  | [t] => Sprint_Transaction t
  | t :: rest => Sprint_Transaction t ++ " " ++ Sprint_elements rest
  end.

Definition Sprint (ts : list Transaction) : string :=
  "[" ++ Sprint_elements ts ++ "]".

(** ** Outcomes of a call: a value, a run-time panic, or fuel exhausted *)

Inductive outcome (A : Type) : Type :=
| Done (a : A)
| Panic
| OutOfFuel.

Arguments Done {A} a.
Arguments Panic {A}.
Arguments OutOfFuel {A}.

Definition bind {A B : Type} (o : outcome A) (k : A -> outcome B)
  : outcome B :=
  match o with
  | Done a => k a
  | Panic => Panic
  | OutOfFuel => OutOfFuel
  end.

Notation "x <- o ;; k" := (bind o (fun x => k))
  (at level 61, o at next level, right associativity).

(** ** The ledger core *)

(** The string handed to the digest by [calculateHash]. *)
Definition record (block : Block) : string :=
  Itoa (Index block) ++ Timestamp block ++ PrevHash block
       ++ Sprint (Transactions block) ++ Nonce block.

Definition calculateHash (block : Block) : string :=
  sha256_hex (record block).

(** The loop of [isHashValid] that builds the prefix. *)
Fixpoint zeros (n : nat) (prefix : string) : string :=
  match n with
  | O => prefix
  | S n' => zeros n' (prefix ++ "0")
  end.

(** [hash[:difficulty]] panics when [difficulty] is negative or exceeds
    the length of [hash]. *)
Definition isHashValid (hash : string) (difficulty : Z) : outcome bool :=
  let prefix := zeros (Z.to_nat difficulty) "" in
  if (difficulty <? 0)%Z || (Z.of_nat (String.length hash) <? difficulty)%Z
  then Panic
  else Done (String.eqb (substring 0 (Z.to_nat difficulty) hash) prefix).

(** The mining loop of [generateBlock], from counter [i] on. *)
Fixpoint mine (fuel : nat) (i : Z) (newBlock : Block) : outcome Block :=
  match fuel with
  | O => OutOfFuel
  | S fuel' =>
      let newBlock := set_Nonce (Itoa i) newBlock in
      let hash := calculateHash newBlock in
      valid <- isHashValid hash (Difficulty newBlock) ;;
      if valid : bool then Done (set_Hash hash newBlock)
      else mine fuel' (int_add i 1) newBlock
  end.

(** The block of [generateBlock] when the loop is entered. *)
Definition candidate (now : string) (oldBlock : Block)
    (transactions : list Transaction) : Block :=
  mkBlock (int_add (Index oldBlock) 1) now transactions (Hash oldBlock)
          "" "" difficulty.

Definition generateBlock (fuel : nat) (now : string) (oldBlock : Block)
    (transactions : list Transaction) : outcome Block :=
  mine fuel 0 (candidate now oldBlock transactions).

Definition isBlockValid (newBlock oldBlock : Block) : bool :=
  if negb (int_add (Index oldBlock) 1 =? Index newBlock)%Z then false
  else if negb (String.eqb (Hash oldBlock) (PrevHash newBlock)) then false
  else if negb (String.eqb (calculateHash newBlock) (Hash newBlock))
  then false
  else true.

Definition isTransactionValid (transaction : Transaction) : bool :=
  if String.eqb (Sender transaction) ""
     || String.eqb (Receiver transaction) ""
     || (Amount transaction <=? 0)%Z
  then false
  else true.

(** [initializeBlockchain]: the digest is taken of the zero block that
    [genesisBlock] holds when the composite literal is evaluated. *)
Definition genesisBlock (now : string) : Block :=
  let genesisBlock := zeroBlock in
  let genesisBlock :=
    mkBlock 0 now [] "" (calculateHash genesisBlock) "" difficulty in
  genesisBlock.

Definition initializeBlockchain (now : string) (Blockchain : list Block)
  : list Block :=
  (Blockchain ++ [genesisBlock now])%list.

(** ** The request handlers *)

Inductive payload : Type :=
| Text (s : string)
| Json (chain : list Block).

Record response : Type := mkResponse {
  status : Z;
  body : payload
}.

(** A request: its method and, for a POST, the decoded transaction
    ([None] when [decoder.Decode] fails). *)
Record request : Type := mkRequest {
  Method : string;
  Decoded : option Transaction
}.

Definition http_Error (msg : string) (code : Z) : response :=
  mkResponse code (Text (msg ++ nl)).

(** [Blockchain[len(Blockchain)-1]]: on an empty chain the index is -1
    and the access panics (here the truncated subtraction gives 0, which
    is out of range of the empty list as well). *)
Definition tail_block (Blockchain : list Block) : outcome Block :=
  match nth_error Blockchain (List.length Blockchain - 1) with
  | Some b => Done b
  | None => Panic
  end.

Definition handleGetBlockchain (Blockchain : list Block)
  : outcome (response * list Block) :=
  Done (mkResponse 200 (Json Blockchain), Blockchain).

Definition handleWriteTransaction (fuel : nat) (now : string)
    (decoded : option Transaction) (Blockchain : list Block)
  : outcome (response * list Block) :=
  match decoded with
  | None => Done (http_Error "Invalid request payload" 400, Blockchain)
  | Some transaction =>
      if negb (isTransactionValid transaction)
      then Done (http_Error "Invalid transaction" 400, Blockchain)
      else
        oldBlock <- tail_block Blockchain ;;
        newBlock <- generateBlock fuel now oldBlock [transaction] ;;
        oldBlock' <- tail_block Blockchain ;;
        if isBlockValid newBlock oldBlock'
        then Done (mkResponse 200
                     (Text ("Transaction added to Block "
                              ++ Itoa (Index newBlock) ++ nl)),
                   (Blockchain ++ [newBlock])%list)
        else Done (http_Error "Invalid block" 500, Blockchain)
  end.

Definition handleAPIRequests (fuel : nat) (now : string) (r : request)
    (Blockchain : list Block) : outcome (response * list Block) :=
  if String.eqb (Method r) "GET" then handleGetBlockchain Blockchain
  else if String.eqb (Method r) "POST"
  then handleWriteTransaction fuel now (Decoded r) Blockchain
  else Done (http_Error "Method not allowed" 405, Blockchain).

(** Ledger states of a run: [main] initialises the empty global, then
    requests are served one after the other. *)
Inductive reachable : list Block -> Prop :=
| reachable_init (now : string) :
    reachable (initializeBlockchain now [])
| reachable_step (chain chain' : list Block) (fuel : nat) (now : string)
    (r : request) (resp : response) :
    reachable chain ->
    handleAPIRequests fuel now r chain = Done (resp, chain') ->
    reachable chain'.

(** A sample of [time.Now().String()] and of a submitted transaction. *)
Definition sample_now : string :=
  "2024-05-17 10:30:00.123456789 +0000 UTC m=+0.000123456".

Definition sample_tx : Transaction := mkTransaction "alice" "bob" 10.

(** The first candidate of a fresh ledger: the block [generateBlock]
    mines when [sample_tx] is submitted right after the start. *)
Definition sample_candidate : Block :=
  candidate sample_now (genesisBlock sample_now) [sample_tx].

(** * Specification vocabulary *)

(** The first [d] characters of [h] are all ["0"]. *)
Definition zero_prefix (d : Z) (h : string) : Prop :=
  forall k : nat, (Z.of_nat k < d)%Z -> String.get k h = Some "0"%char.

(** The digest tried at nonce [i], and the block returned when it fits. *)
Definition attempt (b : Block) (i : Z) : string :=
  calculateHash (set_Nonce (Itoa i) b).

Definition mined (b : Block) (i : Z) : Block :=
  set_Hash (attempt b i) (set_Nonce (Itoa i) b).

(** Nonce [i] solves the puzzle of payload [b]. *)
Definition solves (b : Block) (i : Z) : Prop :=
  zero_prefix (Difficulty b) (attempt b i).

(** The fields a mining run reads: all but [Nonce] and [Hash]. *)
Definition same_payload (b1 b2 : Block) : Prop :=
  Index b1 = Index b2 /\ Timestamp b1 = Timestamp b2 /\
  Transactions b1 = Transactions b2 /\ PrevHash b1 = PrevHash b2 /\
  Difficulty b1 = Difficulty b2.

(** [cur] is linked to [prev]: the three tests of [isBlockValid]. *)
Definition linked (prev cur : Block) : Prop :=
  Index cur = int_add (Index prev) 1
  /\ PrevHash cur = Hash prev
  /\ calculateHash cur = Hash cur.

Definition committed (newBlock : Block) : response :=
  mkResponse 200
    (Text ("Transaction added to Block " ++ Itoa (Index newBlock) ++ nl)).

(** Non-empty, genesis first, every adjacent pair linked. *)
Definition ledger_invariant (chain : list Block) : Prop :=
  chain <> []
  /\ (forall g : Block,
        nth_error chain 0 = Some g ->
        Index g = 0%Z /\ PrevHash g = "" /\ Transactions g = [])
  /\ (forall (i : nat) (prev cur : Block),
        nth_error chain i = Some prev ->
        nth_error chain (S i) = Some cur ->
        Index cur = int_add (Index prev) 1
        /\ PrevHash cur = Hash prev
        /\ calculateHash cur = Hash cur).

(** ** The handler's steps

    [net/http] runs the handler of each request on a goroutine of its
    own, and [mutex] is held around the append alone: the tail read and
    mining of the [generateBlock] call, and the tail read and test of
    the [isBlockValid] call, run outside it. *)

(** [generateBlock(Blockchain[len(Blockchain)-1], ...)] *)
Definition mine_on_tail (fuel : nat) (now : string) (t : Transaction)
    (Blockchain : list Block) : outcome Block :=
  oldBlock <- tail_block Blockchain ;;
  generateBlock fuel now oldBlock [t].

(** [isBlockValid(newBlock, Blockchain[len(Blockchain)-1])] *)
Definition verify_on_tail (newBlock : Block) (Blockchain : list Block)
  : outcome bool :=
  oldBlock <- tail_block Blockchain ;;
  Done (isBlockValid newBlock oldBlock).

(** [mutex.Lock(); Blockchain = append(Blockchain, newBlock);
    mutex.Unlock()] *)
Definition locked_append (newBlock : Block) (Blockchain : list Block)
  : list Block :=
  (Blockchain ++ [newBlock])%list.

(** The rest of the handler once the block is mined: the test and, on
    success, the append and the 200 answer; else the 500 answer. *)
Definition answer_after_mining (newBlock : Block)
    (Blockchain : list Block) : outcome (response * list Block) :=
  ok <- verify_on_tail newBlock Blockchain ;;
  if ok : bool
  then Done (mkResponse 200
               (Text ("Transaction added to Block "
                        ++ Itoa (Index newBlock) ++ nl)),
             locked_append newBlock Blockchain)
  else Done (http_Error "Invalid block" 500, Blockchain).

(** A second submission, a moment before the first sample. *)
Definition other_now : string :=
  "2024-05-17 10:30:00.123999999 +0000 UTC m=+0.000124001".

Definition other_tx : Transaction := mkTransaction "bob" "carol" 5.

(** A run of the server from one ledger state to a later one: any
    number of requests, served one after the other. *)
Inductive serves : list Block -> list Block -> Prop :=
| serves_none (chain : list Block) : serves chain chain
| serves_more (chain chain' chain'' : list Block) (fuel : nat)
    (now : string) (r : request) (resp : response) :
    serves chain chain' ->
    handleAPIRequests fuel now r chain' = Done (resp, chain'') ->
    serves chain chain''.

(** The number a string of decimal digits writes, continuing from
    [acc]; [Atoi] reads an optional minus sign first. *)
Fixpoint decimal_value (s : string) (acc : Z) : Z :=
  match s with
  | EmptyString => acc
  | String c rest =>
      decimal_value rest (10 * acc + (Z.of_nat (nat_of_ascii c) - 48))
  end.

Definition Atoi (s : string) : Z :=
  match s with
  | String "-" rest => - decimal_value rest 0
  | _ => decimal_value s 0
  end.

(** A lowercase hexadecimal digit. *)
Definition lower_hex (c : ascii) : bool :=
  existsb (Ascii.eqb c) (list_ascii_of_string "0123456789abcdef").

(** A byte. *)
Definition is_byte (x : Z) : Prop := (0 <= x < 256)%Z.

(** * Lemmas *)

(** ** Test vectors of the digest *)

Example sha256_constants :
  List.length Sha256.K = 64%nat
  /\ hd 0 Sha256.K = 0x428a2f98 /\ last Sha256.K 0 = 0xc67178f2
  /\ Sha256.sa Sha256.init = 0x6a09e667
  /\ Sha256.sh Sha256.init = 0x5be0cd19.
Proof. repeat split. Qed.

Example sha256_empty :
  sha256_hex "" =
  "e3b0c44298fc1c149afbf4c8996fb92427ae41e4649b934ca495991b7852b855".
Proof. vm_compute. reflexivity. Qed.

Example sha256_abc :
  sha256_hex "abc" =
  "ba7816bf8f01cfea414140de5dae2223b00361a396177a9cb410ff61f20015ad".
Proof. vm_compute. reflexivity. Qed.

Example sha256_two_blocks :
  sha256_hex "abcdbcdecdefdefgefghfghighijhijkijkljklmklmnlmnomnopnopq" =
  "248d6a61d20638b8e5c026930c3e6039a33ce45964ff2167f6ecedd419db06c1".
Proof. vm_compute. reflexivity. Qed.

(** ** The library functions on samples *)

Example Itoa_samples :
  Itoa 0 = "0" /\ Itoa 10 = "10" /\ Itoa (-45) = "-45"
  /\ Itoa int_max = "9223372036854775807"
  /\ Itoa int_min = "-9223372036854775808".
Proof. repeat split. Qed.

Example int_add_wraps :
  int_add 41 1 = 42%Z /\ int_add int_max 1 = int_min.
Proof. split; reflexivity. Qed.

Example Sprint_samples :
  Sprint [] = "[]"
  /\ Sprint [sample_tx] = "[{alice bob 10}]"
  /\ Sprint [sample_tx; other_tx] = "[{alice bob 10} {bob carol 5}]".
Proof. repeat split. Qed.

Example isHashValid_samples :
  isHashValid "0a1b" 1 = Done true
  /\ isHashValid "a0b1" 1 = Done false
  /\ isHashValid "00ab" 2 = Done true
  /\ isHashValid "0a1b" 0 = Done true
  /\ isHashValid "0a1b" 5 = Panic
  /\ isHashValid "0a1b" (-1) = Panic.
Proof. repeat split. Qed.

(** ** The digest is sixty-four hexadecimal characters *)

Lemma EncodeToString_length (bs : list Z) :
  String.length (Hex.EncodeToString bs) = (2 * List.length bs)%nat.
Proof.
  induction bs as [|b rest IH]; simpl; [reflexivity|].
  rewrite IH. lia.
Qed.

Lemma Sum_length (msg : list Z) : List.length (Sha256.Sum msg) = 32%nat.
Proof. unfold Sha256.Sum, Sha256.output. reflexivity. Qed.

Lemma calculateHash_length (block : Block) :
  String.length (calculateHash block) = 64%nat.
Proof.
  unfold calculateHash, sha256_hex.
  rewrite EncodeToString_length, Sum_length. reflexivity.
Qed.

(** ** What [isHashValid] decides *)

Lemma append_String_assoc (p q r : string) : (p ++ q) ++ r = p ++ (q ++ r).
Proof. induction p as [|c p IH]; simpl; [reflexivity|]. now rewrite IH. Qed.

Lemma zeros_append (n : nat) (p : string) : zeros n p = p ++ zeros n "".
Proof.
  revert p. induction n as [|n IH]; intro p; simpl.
  - induction p as [|c p IHp]; simpl; [reflexivity|]. now rewrite <- IHp.
  - rewrite (IH (p ++ "0")), (IH "0"). apply append_String_assoc.
Qed.

Lemma zeros_S (n : nat) : zeros (S n) "" = String "0" (zeros n "").
Proof. simpl. now rewrite zeros_append. Qed.

Lemma substring_zeros (n : nat) (h : string) :
  (n <= String.length h)%nat ->
  substring 0 n h = zeros n "" <->
  (forall k : nat, (k < n)%nat -> String.get k h = Some "0"%char).
Proof.
  revert h. induction n as [|n IH]; intros h Hlen.
  - split; [intros _ k Hk; lia|]. intros _. now destruct h.
  - destruct h as [|c h]; [simpl in Hlen; lia|].
    simpl in Hlen. rewrite zeros_S. simpl substring. split.
    + intros Heq k Hk. injection Heq as Hc Hrest.
      destruct k as [|k]; simpl; [now subst c|].
      apply (proj1 (IH h ltac:(lia)) Hrest). lia.
    + intros Hall. f_equal.
      * specialize (Hall 0%nat ltac:(lia)). simpl in Hall. congruence.
      * apply (proj2 (IH h ltac:(lia))). intros k Hk.
        apply (Hall (S k)). lia.
Qed.

Lemma isHashValid_Done (hash : string) (d : Z) :
  (0 <= d <= Z.of_nat (String.length hash))%Z ->
  isHashValid hash d
  = Done (String.eqb (substring 0 (Z.to_nat d) hash) (zeros (Z.to_nat d) "")).
Proof.
  intros Hd. unfold isHashValid.
  destruct (Z.ltb_spec d 0); [lia|].
  destruct (Z.ltb_spec (Z.of_nat (String.length hash)) d); [lia|].
  reflexivity.
Qed.

Lemma isHashValid_true_iff (hash : string) (d : Z) :
  (0 <= d <= Z.of_nat (String.length hash))%Z ->
  isHashValid hash d = Done true <-> zero_prefix d hash.
Proof.
  intros Hd. rewrite (isHashValid_Done hash d Hd).
  assert (Hsub := substring_zeros (Z.to_nat d) hash ltac:(lia)).
  split.
  - intros H. injection H as H. apply String.eqb_eq in H.
    intros k Hk. apply (proj1 Hsub H). lia.
  - intros Hz. f_equal. apply String.eqb_eq. apply (proj2 Hsub).
    intros k Hk. apply Hz. lia.
Qed.

Lemma isHashValid_false_iff (hash : string) (d : Z) :
  (0 <= d <= Z.of_nat (String.length hash))%Z ->
  isHashValid hash d = Done false <-> ~ zero_prefix d hash.
Proof.
  intros Hd. rewrite <- (isHashValid_true_iff hash d Hd).
  rewrite (isHashValid_Done hash d Hd).
  destruct (String.eqb _ _); split; intro H;
    solve [congruence | exfalso; now apply H].
Qed.

(** ** Integer arithmetic without overflow *)

Lemma int_add_small (x y : Z) :
  (int_min <= x + y <= int_max)%Z -> int_add x y = (x + y)%Z.
Proof.
  unfold int_add, int_wrap, int_min, int_max.
  change (2 ^ 63)%Z with 9223372036854775808%Z.
  change (2 ^ 64)%Z with 18446744073709551616%Z.
  intros H. rewrite Z.mod_small; lia.
Qed.


(** ** The mining loop *)

Lemma mined_same_payload (b1 b2 : Block) (i : Z) :
  same_payload b1 b2 -> mined b1 i = mined b2 i.
Proof.
  destruct b1, b2. unfold same_payload. simpl.
  intros (-> & -> & -> & -> & ->). reflexivity.
Qed.

Lemma attempt_same_payload (b1 b2 : Block) (i : Z) :
  same_payload b1 b2 -> attempt b1 i = attempt b2 i.
Proof.
  destruct b1, b2. unfold same_payload. simpl.
  intros (-> & -> & -> & -> & ->). reflexivity.
Qed.

Lemma same_payload_set_Nonce (b : Block) (v : string) :
  same_payload (set_Nonce v b) b.
Proof. unfold same_payload. simpl. repeat split. Qed.

Lemma mine_unfold (fuel : nat) (i : Z) (b : Block) :
  mine (S fuel) i b
  = (valid <- isHashValid (attempt b i) (Difficulty b) ;;
     if valid : bool then Done (mined b i)
     else mine fuel (int_add i 1) (set_Nonce (Itoa i) b)).
Proof. reflexivity. Qed.

Lemma mine_same_payload (fuel : nat) :
  forall (i : Z) (b1 b2 : Block),
    same_payload b1 b2 -> mine fuel i b1 = mine fuel i b2.
Proof.
  induction fuel as [|fuel IH]; intros i b1 b2 Hp; [reflexivity|].
  rewrite !mine_unfold.
  rewrite (attempt_same_payload b1 b2 i Hp), (mined_same_payload b1 b2 i Hp).
  replace (Difficulty b1) with (Difficulty b2) by (symmetry; apply Hp).
  destruct (isHashValid _ _) as [[|]| |]; simpl; try reflexivity.
  apply IH. destruct b1, b2. unfold same_payload in *. simpl in *. exact Hp.
Qed.

Lemma mine_step (fuel : nat) (i : Z) (b : Block) :
  mine (S fuel) i b
  = (valid <- isHashValid (attempt b i) (Difficulty b) ;;
     if valid : bool then Done (mined b i) else mine fuel (int_add i 1) b).
Proof.
  rewrite mine_unfold.
  destruct (isHashValid _ _) as [[|]| |]; simpl; try reflexivity.
  apply mine_same_payload, same_payload_set_Nonce.
Qed.

Section Mining.

Variable b : Block.
Hypothesis difficulty_in_range : (0 <= Difficulty b <= 64)%Z.

Lemma attempt_in_range (i : Z) :
  (0 <= Difficulty b <= Z.of_nat (String.length (attempt b i)))%Z.
Proof. unfold attempt. rewrite calculateHash_length. lia. Qed.

Lemma solves_dec (i : Z) : {solves b i} + {~ solves b i}.
Proof.
  unfold solves.
  destruct (isHashValid (attempt b i) (Difficulty b)) as [[|]| |] eqn:E.
  - left. now apply isHashValid_true_iff; [apply attempt_in_range|].
  - right. now apply isHashValid_false_iff; [apply attempt_in_range|].
  - rewrite isHashValid_Done in E by apply attempt_in_range. discriminate.
  - rewrite isHashValid_Done in E by apply attempt_in_range. discriminate.
Qed.

Lemma mine_hit (fuel : nat) (i : Z) :
  solves b i -> mine (S fuel) i b = Done (mined b i).
Proof.
  intros Hs. rewrite mine_step.
  apply isHashValid_true_iff in Hs; [|apply attempt_in_range].
  unfold solves in Hs. now rewrite Hs.
Qed.

Lemma mine_miss (fuel : nat) (i : Z) :
  ~ solves b i -> mine (S fuel) i b = mine fuel (int_add i 1) b.
Proof.
  intros Hs. rewrite mine_step.
  apply isHashValid_false_iff in Hs; [|apply attempt_in_range].
  now rewrite Hs.
Qed.

(** The loop never panics: the digest is long enough to be sliced. *)
Lemma mine_no_panic (fuel : nat) :
  forall i : Z, mine fuel i b <> Panic.
Proof.
  induction fuel as [|fuel IH]; intros i; [discriminate|].
  destruct (solves_dec i) as [Hs|Hs].
  - now rewrite mine_hit.
  - rewrite mine_miss by assumption. apply IH.
Qed.

(** From counter [i], with [k] misses ahead of the first hit: the loop
    needs exactly [k + 1] iterations and returns the hit. *)
Lemma mine_run (k : nat) :
  forall i : Z,
    (0 <= i)%Z -> (i + Z.of_nat k <= int_max)%Z ->
    (forall j : Z, (i <= j < i + Z.of_nat k)%Z -> ~ solves b j) ->
    solves b (i + Z.of_nat k) ->
    forall fuel : nat,
      ((k < fuel)%nat -> mine fuel i b = Done (mined b (i + Z.of_nat k)))
      /\ ((fuel <= k)%nat -> mine fuel i b = OutOfFuel).
Proof.
  induction k as [|k IH]; intros i Hi Hmax Hmiss Hhit fuel.
  - rewrite Z.add_0_r in *. split; intros Hf.
    + destruct fuel as [|fuel]; [lia|]. now apply mine_hit.
    + now replace fuel with 0%nat by lia.
  - assert (Hadd : int_add i 1 = (i + 1)%Z).
    { apply int_add_small. unfold int_min. lia. }
    assert (Hshift : (i + 1 + Z.of_nat k = i + Z.of_nat (S k))%Z) by lia.
    destruct fuel as [|fuel]; [split; [lia|reflexivity]|].
    rewrite mine_miss by (apply Hmiss; lia).
    rewrite Hadd.
    destruct (IH (i + 1)%Z ltac:(lia) ltac:(lia)
                ltac:(intros j Hj; apply Hmiss; lia)
                ltac:(now rewrite Hshift) fuel) as [Hdone Hout].
    rewrite Hshift in Hdone.
    split; intros Hf; [apply Hdone|apply Hout]; lia.
Qed.

(** Below any bound, either nothing solves or there is a first hit. *)
Lemma first_hit (k : nat) :
  (forall j : nat, (j < k)%nat -> ~ solves b (Z.of_nat j))
  \/ (exists m : nat, (m < k)%nat /\ solves b (Z.of_nat m)
        /\ forall j : nat, (j < m)%nat -> ~ solves b (Z.of_nat j)).
Proof.
  induction k as [|k [Hnone|(m & Hm & Hs & Hleast)]].
  - left. intros j Hj. lia.
  - destruct (solves_dec (Z.of_nat k)) as [Hs|Hs].
    + right. exists k. split; [lia|]. split; assumption.
    + left. intros j Hj. destruct (Nat.eq_dec j k) as [->|Hne];
        [assumption|apply Hnone; lia].
  - right. exists m. split; [lia|]. split; assumption.
Qed.

End Mining.

Lemma mine_fuel_mono (fuel : nat) :
  forall (fuel' : nat) (i : Z) (b r : Block),
    (fuel <= fuel')%nat -> mine fuel i b = Done r -> mine fuel' i b = Done r.
Proof.
  induction fuel as [|fuel IH]; intros fuel' i b r Hle Hrun; [discriminate|].
  destruct fuel' as [|fuel']; [lia|].
  rewrite mine_step in *.
  destruct (isHashValid _ _) as [[|]| |]; simpl in *; try assumption.
  apply IH; [lia|assumption].
Qed.

(** Whatever the loop returns is a hit at some nonce. *)
Lemma mine_Done (fuel : nat) :
  forall (i : Z) (b r : Block),
    mine fuel i b = Done r ->
    exists j : Z,
      r = mined b j
      /\ isHashValid (attempt b j) (Difficulty b) = Done true.
Proof.
  induction fuel as [|fuel IH]; intros i b r Hrun; [discriminate|].
  rewrite mine_step in Hrun.
  destruct (isHashValid _ _) as [[|]| |] eqn:E; simpl in Hrun;
    try discriminate.
  - injection Hrun as <-. now exists i.
  - now apply IH in Hrun.
Qed.

Lemma calculateHash_mined (b : Block) (j : Z) :
  calculateHash (mined b j) = Hash (mined b j).
Proof. unfold mined, attempt, calculateHash, record. simpl. reflexivity. Qed.

Lemma candidate_in_range (now : string) (old : Block)
    (ts : list Transaction) :
  (0 <= Difficulty (candidate now old ts) <= 64)%Z.
Proof. unfold candidate, difficulty. simpl. lia. Qed.

Lemma generateBlock_Done (fuel : nat) (now : string) (old : Block)
    (ts : list Transaction) (nb : Block) :
  generateBlock fuel now old ts = Done nb ->
  exists j : Z,
    nb = mined (candidate now old ts) j
    /\ solves (candidate now old ts) j.
Proof.
  unfold generateBlock. intros Hrun.
  destruct (mine_Done _ _ _ _ Hrun) as (j & -> & Hv).
  exists j. split; [reflexivity|].
  apply isHashValid_true_iff in Hv; [exact Hv|].
  apply attempt_in_range, candidate_in_range.
Qed.

(** ** The chain tail *)

Lemma nth_error_snoc (chain : list Block) (b : Block) :
  nth_error (chain ++ [b]) (List.length chain) = Some b.
Proof. rewrite nth_error_app2 by lia. now rewrite Nat.sub_diag. Qed.

Lemma tail_block_app (chain : list Block) (b : Block) :
  tail_block (chain ++ [b]) = Done b.
Proof.
  unfold tail_block. rewrite length_app. simpl.
  replace (List.length chain + 1 - 1)%nat with (List.length chain) by lia.
  rewrite nth_error_app2 by lia. now rewrite Nat.sub_diag.
Qed.

Lemma tail_block_Done (chain : list Block) (b : Block) :
  tail_block chain = Done b ->
  chain <> []
  /\ nth_error chain (List.length chain - 1) = Some b.
Proof.
  unfold tail_block. destruct chain as [|c chain]; [discriminate|].
  destruct (nth_error _ _) eqn:E; [|discriminate].
  intros H. injection H as ->. split; [discriminate|reflexivity].
Qed.


(** ** What [isBlockValid] decides *)

Lemma isBlockValid_linked (newBlock oldBlock : Block) :
  isBlockValid newBlock oldBlock = true <-> linked oldBlock newBlock.
Proof.
  unfold isBlockValid, linked.
  destruct (Z.eqb_spec (int_add (Index oldBlock) 1) (Index newBlock))
    as [Hi|Hi]; cbv [negb].
  - destruct (String.eqb_spec (Hash oldBlock) (PrevHash newBlock))
      as [Hp|Hp].
    + destruct (String.eqb_spec (calculateHash newBlock) (Hash newBlock))
        as [Hh|Hh].
      * split; [intros _|reflexivity].
        split; [now symmetry|]. split; [now symmetry|assumption].
      * split; [discriminate|]. intros (_ & _ & H). now elim Hh.
    + split; [discriminate|]. intros (_ & H & _). elim Hp. now symmetry.
  - split; [discriminate|]. intros (H & _). elim Hi. now symmetry.
Qed.

Lemma mined_candidate_linked (now : string) (old : Block)
    (ts : list Transaction) (j : Z) :
  linked old (mined (candidate now old ts) j).
Proof.
  unfold linked. split; [reflexivity|]. split; [reflexivity|].
  apply calculateHash_mined.
Qed.

(** ** Digests of the samples *)

Lemma zeroBlock_digest :
  calculateHash zeroBlock
  = "431bf5c814e384ce9fa40f655f4b94f7f6a8c8504ea4844c30c484ebf03121f1".
Proof. vm_compute. reflexivity. Qed.

Lemma sample_genesis_digest :
  calculateHash (genesisBlock sample_now)
  = "5f8890f8fc8c57fe4a4079661819ad0013bacf3eff698e17a080b19e1feaf2b4".
Proof. vm_compute. reflexivity. Qed.

Lemma sample_attempt_0 :
  attempt sample_candidate 0
  = "bdd7c4653fef0ce8142609a837c86f79e77c5c348ba73e481558d9287e4bb83e".
Proof. vm_compute. reflexivity. Qed.

Lemma sample_attempt_1 :
  attempt sample_candidate 1
  = "6b20e4123523ea11ae562159d7053e5889fd84984ea3b07c3d7e25be636f21e0".
Proof. vm_compute. reflexivity. Qed.

Lemma sample_attempt_2 :
  attempt sample_candidate 2
  = "0228e417e09de110364d681286c6f283ab0699cc40328a9c01115506a795607d".
Proof. vm_compute. reflexivity. Qed.

(** The sample submission on a fresh ledger: two misses, then a hit. *)
Example generateBlock_sample :
  generateBlock 3 sample_now (genesisBlock sample_now) [sample_tx]
  = Done (mkBlock 1 sample_now [sample_tx]
            "431bf5c814e384ce9fa40f655f4b94f7f6a8c8504ea4844c30c484ebf03121f1"
            "0228e417e09de110364d681286c6f283ab0699cc40328a9c01115506a795607d"
            "2" 1)
  /\ generateBlock 2 sample_now (genesisBlock sample_now) [sample_tx]
     = OutOfFuel.
Proof. split; vm_compute; reflexivity. Qed.

(** A prefix of one character is decided by the first character. *)
Lemma zero_prefix_1 (c : ascii) (h : string) :
  zero_prefix 1 (String c h) <-> c = "0"%char.
Proof.
  unfold zero_prefix. split.
  - intros H. specialize (H 0%nat ltac:(lia)). simpl in H. congruence.
  - intros -> k Hk. replace k with 0%nat by lia. reflexivity.
Qed.

Lemma sample_solves_2 : solves sample_candidate 2.
Proof.
  unfold solves. rewrite sample_attempt_2.
  change (Difficulty sample_candidate) with 1%Z.
  now apply zero_prefix_1.
Qed.

Lemma sample_misses_0 : ~ solves sample_candidate 0.
Proof.
  unfold solves. rewrite sample_attempt_0.
  change (Difficulty sample_candidate) with 1%Z.
  rewrite zero_prefix_1. discriminate.
Qed.

Lemma sample_misses_1 : ~ solves sample_candidate 1.
Proof.
  unfold solves. rewrite sample_attempt_1.
  change (Difficulty sample_candidate) with 1%Z.
  rewrite zero_prefix_1. discriminate.
Qed.

(** ** The submission flow, step by step *)

Lemma generateBlock_isBlockValid (fuel : nat) (now : string) (old : Block)
    (ts : list Transaction) (nb : Block) :
  generateBlock fuel now old ts = Done nb -> isBlockValid nb old = true.
Proof.
  intros Hrun. destruct (generateBlock_Done _ _ _ _ _ Hrun) as (j & -> & _).
  apply isBlockValid_linked, mined_candidate_linked.
Qed.

(** A valid transaction on a chain with tail [old]: the handler mines
    and, the block being linked to the tail it was mined on, appends. *)
Lemma handleWriteTransaction_valid (fuel : nat) (now : string)
    (t : Transaction) (chain : list Block) (old : Block) :
  isTransactionValid t = true ->
  tail_block chain = Done old ->
  handleWriteTransaction fuel now (Some t) chain
  = (newBlock <- generateBlock fuel now old [t] ;;
     Done (committed newBlock, (chain ++ [newBlock])%list)).
Proof.
  intros Hv Ht. unfold handleWriteTransaction. rewrite Hv, Ht.
  cbv [negb bind].
  destruct (generateBlock fuel now old [t]) as [nb| |] eqn:E;
    try reflexivity.
  now rewrite (generateBlock_isBlockValid _ _ _ _ _ E).
Qed.

Lemma handleWriteTransaction_invalid (fuel : nat) (now : string)
    (t : Transaction) (chain : list Block) :
  isTransactionValid t = false ->
  handleWriteTransaction fuel now (Some t) chain
  = Done (http_Error "Invalid transaction" 400, chain).
Proof. intros Hv. unfold handleWriteTransaction. now rewrite Hv. Qed.

(** Every answered request leaves the chain as it was or appends one
    block mined on its tail. *)
Lemma handleAPIRequests_cases (fuel : nat) (now : string) (r : request)
    (chain chain' : list Block) (resp : response) :
  handleAPIRequests fuel now r chain = Done (resp, chain') ->
  chain' = chain
  \/ exists (old : Block) (t : Transaction) (j : Z),
       tail_block chain = Done old
       /\ Decoded r = Some t
       /\ isTransactionValid t = true
       /\ solves (candidate now old [t]) j
       /\ resp = committed (mined (candidate now old [t]) j)
       /\ chain' = (chain ++ [mined (candidate now old [t]) j])%list.
Proof.
  unfold handleAPIRequests, handleGetBlockchain.
  destruct (String.eqb (Method r) "GET");
    [intros H; injection H as _ <-; now left|].
  destruct (String.eqb (Method r) "POST");
    [|intros H; injection H as _ <-; now left].
  destruct (Decoded r) as [t|];
    [|intros H; injection H as _ <-; now left].
  destruct (isTransactionValid t) eqn:Hv.
  - destruct (tail_block chain) as [old| |] eqn:Ht.
    + rewrite (handleWriteTransaction_valid _ _ _ _ _ Hv Ht).
      destruct (generateBlock fuel now old [t]) as [nb| |] eqn:E;
        try discriminate.
      cbv [bind]. intros H. injection H as <- <-.
      destruct (generateBlock_Done _ _ _ _ _ E) as (j & -> & Hs).
      right. exists old, t, j. repeat split; assumption.
    + unfold handleWriteTransaction. rewrite Hv, Ht. discriminate.
    + unfold handleWriteTransaction. rewrite Hv, Ht. discriminate.
  - rewrite (handleWriteTransaction_invalid _ _ _ _ Hv).
    intros H. injection H as _ <-. now left.
Qed.

(** ** The ledger invariant *)

Lemma ledger_invariant_init (now : string) :
  ledger_invariant (initializeBlockchain now []).
Proof.
  unfold initializeBlockchain. cbv [app]. split; [discriminate|]. split.
  - intros g Hg. injection Hg as <-. repeat split.
  - intros i prev cur _ Hcur. destruct i; discriminate.
Qed.

Lemma ledger_invariant_append (chain : list Block) (old nb : Block) :
  ledger_invariant chain ->
  tail_block chain = Done old ->
  linked old nb ->
  ledger_invariant (chain ++ [nb]).
Proof.
  intros (Hne & Hgen & Hadj) Ht Hl.
  apply tail_block_Done in Ht. destruct Ht as (_ & Hlast).
  assert (Hlen : (0 < List.length chain)%nat).
  { destruct chain; [congruence|simpl; lia]. }
  split; [intros H; apply app_eq_nil in H; destruct H; discriminate|].
  split.
  - intros g Hg. rewrite nth_error_app1 in Hg by assumption. now apply Hgen.
  - intros i prev cur Hprev Hcur.
    destruct (Nat.lt_ge_cases (S i) (List.length chain)) as [Hlt|Hge].
    + rewrite nth_error_app1 in Hprev by lia.
      rewrite nth_error_app1 in Hcur by lia.
      exact (Hadj i prev cur Hprev Hcur).
    + rewrite nth_error_app2 in Hcur by lia.
      destruct (S i - List.length chain)%nat as [|k] eqn:Hk;
        [|destruct k; discriminate].
      injection Hcur as <-.
      rewrite nth_error_app1 in Hprev by lia.
      replace i with (List.length chain - 1)%nat in Hprev by lia.
      rewrite Hlast in Hprev. injection Hprev as <-. exact Hl.
Qed.

Lemma ledger_invariant_step (fuel : nat) (now : string) (r : request)
    (chain chain' : list Block) (resp : response) :
  ledger_invariant chain ->
  handleAPIRequests fuel now r chain = Done (resp, chain') ->
  ledger_invariant chain'.
Proof.
  intros Hinv Hrun.
  destruct (handleAPIRequests_cases _ _ _ _ _ _ Hrun)
    as [->|(old & t & j & Ht & _ & _ & _ & _ & ->)]; [assumption|].
  apply (ledger_invariant_append chain old); try assumption.
  apply mined_candidate_linked.
Qed.


(** ** The genesis block *)

Lemma record_zeroBlock : record zeroBlock = "0[]".
Proof. reflexivity. Qed.

Lemma record_genesis (now : string) :
  record (genesisBlock now) = String "0" (now ++ "[]").
Proof. reflexivity. Qed.

Lemma sample_genesis_not_zero_prefixed :
  ~ zero_prefix difficulty (Hash (genesisBlock sample_now)).
Proof.
  change (Hash (genesisBlock sample_now)) with (calculateHash zeroBlock).
  rewrite zeroBlock_digest. unfold difficulty.
  rewrite zero_prefix_1. discriminate.
Qed.

Lemma sample_genesis_hash_not_digest :
  calculateHash (genesisBlock sample_now) <> Hash (genesisBlock sample_now).
Proof.
  change (Hash (genesisBlock sample_now)) with (calculateHash zeroBlock).
  rewrite zeroBlock_digest, sample_genesis_digest. discriminate.
Qed.


Lemma sample_chain_reachable :
  reachable [genesisBlock sample_now; mined sample_candidate 2].
Proof.
  apply (reachable_step [genesisBlock sample_now] _ 3 sample_now
           (mkRequest "POST" (Some sample_tx))
           (committed (mined sample_candidate 2))).
  - exact (reachable_init sample_now).
  - vm_compute. reflexivity.
Defined.

(** ** Two handlers interleaved *)

Lemma int_add_1_neq (y : Z) : int_add y 1 <> y.
Proof.
  unfold int_add, int_wrap.
  change (2 ^ 63)%Z with 9223372036854775808%Z.
  change (2 ^ 64)%Z with 18446744073709551616%Z.
  assert (Hdiv := Z.div_mod (y + 1 + 9223372036854775808)
                    18446744073709551616 ltac:(lia)).
  assert (Hmod := Z.mod_pos_bound (y + 1 + 9223372036854775808)
                    18446744073709551616 ltac:(lia)).
  lia.
Qed.

(** Served alone, a valid submission is the three steps in a row. *)
Lemma handleWriteTransaction_steps (fuel : nat) (now : string)
    (t : Transaction) (chain : list Block) :
  isTransactionValid t = true ->
  handleWriteTransaction fuel now (Some t) chain
  = (newBlock <- mine_on_tail fuel now t chain ;;
     ok <- verify_on_tail newBlock chain ;;
     if ok : bool
     then Done (committed newBlock, locked_append newBlock chain)
     else Done (http_Error "Invalid block" 500, chain)).
Proof.
  intros Hv. unfold handleWriteTransaction, mine_on_tail, verify_on_tail.
  rewrite Hv. cbv [negb]. destruct (tail_block chain); reflexivity.
Qed.

Lemma mine_on_tail_Done (fuel : nat) (now : string) (t : Transaction)
    (chain : list Block) (nb : Block) :
  mine_on_tail fuel now t chain = Done nb ->
  exists (old : Block) (j : Z),
    tail_block chain = Done old /\ nb = mined (candidate now old [t]) j.
Proof.
  unfold mine_on_tail.
  destruct (tail_block chain) as [old| |]; try discriminate.
  cbv [bind]. intros Hrun.
  destruct (generateBlock_Done _ _ _ _ _ Hrun) as (j & -> & _).
  now exists old, j.
Qed.

(** * The claims *)

(** C1. [isBlockValid newBlock oldBlock] (candidate, predecessor) is
    true exactly when the candidate's index is the predecessor's index
    plus one (Go's [int] addition), its [PrevHash] is the predecessor's
    [Hash], and its recomputed digest is its stored [Hash].  No
    difficulty prefix is tested: a candidate that meets the three
    conditions is accepted even when its hash does not start with the
    required zeros, and such candidates exist. *)
Theorem isBlockValid_iff_three_conditions :
  (forall newBlock oldBlock : Block,
      isBlockValid newBlock oldBlock = true
      <-> (Index newBlock = int_add (Index oldBlock) 1
           /\ PrevHash newBlock = Hash oldBlock
           /\ calculateHash newBlock = Hash newBlock))
  /\ (forall newBlock oldBlock : Block,
        Index newBlock = int_add (Index oldBlock) 1 ->
        PrevHash newBlock = Hash oldBlock ->
        calculateHash newBlock = Hash newBlock ->
        ~ zero_prefix difficulty (Hash newBlock) ->
        isBlockValid newBlock oldBlock = true)
  /\ (exists newBlock oldBlock : Block,
        isBlockValid newBlock oldBlock = true
        /\ ~ zero_prefix difficulty (Hash newBlock)).
Proof.
  split; [exact isBlockValid_linked|]. split.
  - intros c p Hi Hp Hh _. apply isBlockValid_linked. now repeat split.
  - exists (mined sample_candidate 0), (genesisBlock sample_now). split.
    + apply isBlockValid_linked, mined_candidate_linked.
    + exact sample_misses_0.
Qed.

Lemma isBlockValid_iff_three_conditions_witness :
  isBlockValid (mined sample_candidate 0) (genesisBlock sample_now) = true.
Proof.
  apply (proj1 (proj2 isBlockValid_iff_three_conditions)
           (mined sample_candidate 0) (genesisBlock sample_now)).
  - reflexivity.
  - reflexivity.
  - vm_compute. reflexivity.
  - intros Hz.
    apply (isHashValid_true_iff (Hash (mined sample_candidate 0)) 1) in Hz.
    + vm_compute in Hz. discriminate.
    + vm_compute. split; discriminate.
Defined.

(** C2 (as amended). In every chain produced by the start-up followed
    by served requests, every block after the genesis block has a hash
    equal to its recomputed digest and starting with [difficulty]
    characters ["0"]. *)
Theorem mined_blocks_digest_and_difficulty (chain : list Block)
    (i : nat) (b : Block) :
  reachable chain ->
  nth_error chain (S i) = Some b ->
  calculateHash b = Hash b /\ zero_prefix difficulty (Hash b).
Proof.
  intros Hr. revert i b.
  induction Hr as [now|chain chain' fuel now r resp _ IH Hrun];
    intros i b Hb.
  - destruct i; discriminate.
  - destruct (handleAPIRequests_cases _ _ _ _ _ _ Hrun)
      as [->|(old & t & j & _ & _ & _ & Hs & _ & ->)]; [exact (IH i b Hb)|].
    destruct (Nat.lt_ge_cases (S i) (List.length chain)) as [Hlt|Hge].
    + rewrite nth_error_app1 in Hb by lia. exact (IH i b Hb).
    + rewrite nth_error_app2 in Hb by lia.
      destruct (S i - List.length chain)%nat as [|k];
        [|destruct k; discriminate].
      injection Hb as <-. split; [apply calculateHash_mined|exact Hs].
Qed.

Lemma mined_blocks_digest_and_difficulty_witness :
  calculateHash (mined sample_candidate 2) = Hash (mined sample_candidate 2)
  /\ zero_prefix difficulty (Hash (mined sample_candidate 2)).
Proof.
  apply (mined_blocks_digest_and_difficulty
           [genesisBlock sample_now; mined sample_candidate 2] 0).
  - exact sample_chain_reachable.
  - reflexivity.
Defined.

(** C2 as stated fails on the genesis block: in the chain right after
    the start-up, its hash is neither its recomputed digest nor does it
    start with ["0"]. *)
Lemma genesis_breaks_digest_and_difficulty :
  reachable [genesisBlock sample_now]
  /\ In (genesisBlock sample_now) [genesisBlock sample_now]
  /\ calculateHash (genesisBlock sample_now) <> Hash (genesisBlock sample_now)
  /\ ~ zero_prefix difficulty (Hash (genesisBlock sample_now)).
Proof.
  split; [exact (reachable_init sample_now)|].
  split; [now left|].
  split; [exact sample_genesis_hash_not_digest
         |exact sample_genesis_not_zero_prefixed].
Qed.

(** C3. The genesis block that [initializeBlockchain] stores carries
    the digest of the zero-valued [Block] (index 0, empty timestamp,
    previous hash, transaction list and nonce: the digest of ["0[]"]),
    whatever the timestamp, because the digest is taken before the
    fields are assigned.  The string hashed for the stored block is a
    different one as soon as the timestamp is not empty, and on the
    sample timestamp the stored hash is not the digest of the stored
    block. *)
Theorem genesis_hash_is_zero_block_digest :
  (forall (now : string) (chain : list Block),
      initializeBlockchain now chain = (chain ++ [genesisBlock now])%list
      /\ Index (genesisBlock now) = 0%Z
      /\ Timestamp (genesisBlock now) = now
      /\ PrevHash (genesisBlock now) = ""
      /\ Transactions (genesisBlock now) = []
      /\ Nonce (genesisBlock now) = ""
      /\ Hash (genesisBlock now) = calculateHash zeroBlock
      /\ Hash (genesisBlock now) = sha256_hex "0[]"
      /\ (now <> "" -> record (genesisBlock now) <> record zeroBlock))
  /\ calculateHash (genesisBlock sample_now)
     <> Hash (genesisBlock sample_now).
Proof.
  split; [|exact sample_genesis_hash_not_digest].
  intros now chain.
  do 6 (split; [reflexivity|]). split; [reflexivity|].
  split; [reflexivity|].
  intros Hnow. rewrite record_genesis, record_zeroBlock.
  intros H. injection H as H. apply Hnow.
  destruct now as [|c now]; [reflexivity|].
  simpl in H. injection H as _ H.
  destruct now as [|c' now]; simpl in H; [discriminate|].
  injection H as _ H. destruct now; simpl in H; discriminate.
Qed.

Lemma genesis_hash_is_zero_block_digest_witness :
  record (genesisBlock sample_now) <> record zeroBlock.
Proof.
  apply (proj1 genesis_hash_is_zero_block_digest sample_now []).
  discriminate.
Defined.

(** C4. The claimed invariant (non-empty chain, genesis first, every
    adjacent pair linked) does not hold in every ledger state the
    server can reach.  Right after the start-up the invariant holds;
    two valid submissions then arrive together.  Both handlers mine on
    the genesis block, both run their [isBlockValid] test while the
    genesis block is still the tail, and both pass; each appends under
    the mutex.  The chain then holds blocks of index 0, 1 and 1, the
    third naming the genesis block, not the second, as its predecessor:
    the invariant is lost. *)
Theorem concurrent_submissions_break_ledger_invariant :
  reachable (initializeBlockchain sample_now [])
  /\ ledger_invariant (initializeBlockchain sample_now [])
  /\ mine_on_tail 3 sample_now sample_tx (initializeBlockchain sample_now [])
     = Done (mined sample_candidate 2)
  /\ mine_on_tail 2 other_now other_tx (initializeBlockchain sample_now [])
     = Done (mined (candidate other_now (genesisBlock sample_now)
                      [other_tx]) 1)
  /\ verify_on_tail (mined sample_candidate 2)
       (initializeBlockchain sample_now [])
     = Done true
  /\ verify_on_tail
       (mined (candidate other_now (genesisBlock sample_now) [other_tx]) 1)
       (initializeBlockchain sample_now [])
     = Done true
  /\ map Index
       (locked_append
          (mined (candidate other_now (genesisBlock sample_now)
                    [other_tx]) 1)
          (locked_append (mined sample_candidate 2)
             (initializeBlockchain sample_now [])))
     = [0; 1; 1]%Z
  /\ PrevHash
       (mined (candidate other_now (genesisBlock sample_now) [other_tx]) 1)
     <> Hash (mined sample_candidate 2)
  /\ ~ ledger_invariant
         (locked_append
            (mined (candidate other_now (genesisBlock sample_now)
                      [other_tx]) 1)
            (locked_append (mined sample_candidate 2)
               (initializeBlockchain sample_now []))).
Proof.
  split; [exact (reachable_init sample_now)|].
  split; [exact (ledger_invariant_init sample_now)|].
  split; [vm_compute; reflexivity|].
  split; [vm_compute; reflexivity|].
  split; [vm_compute; reflexivity|].
  split; [vm_compute; reflexivity|].
  split; [reflexivity|].
  split; [vm_compute; discriminate|].
  intros (_ & _ & Hadj).
  destruct (Hadj 1%nat (mined sample_candidate 2)
              (mined (candidate other_now (genesisBlock sample_now)
                        [other_tx]) 1)
              eq_refl eq_refl) as (Hi & _).
  vm_compute in Hi. discriminate Hi.
Qed.

(** C5. [isTransactionValid t] is true exactly when the sender is not
    empty, the receiver is not empty and the amount is greater than 0. *)
Theorem isTransactionValid_iff (t : Transaction) :
  isTransactionValid t = true
  <-> (Sender t <> "" /\ Receiver t <> "" /\ (Amount t > 0)%Z).
Proof.
  unfold isTransactionValid.
  destruct (String.eqb_spec (Sender t) "") as [Hs|Hs];
    [split; [discriminate|intros (H & _); now elim H]|].
  destruct (String.eqb_spec (Receiver t) "") as [Hr|Hr];
    [split; [discriminate|intros (_ & H & _); now elim H]|].
  destruct (Z.leb_spec (Amount t) 0) as [Ha|Ha]; cbv [orb].
  - split; [discriminate|]. intros (_ & _ & H). lia.
  - split; [intros _|reflexivity]. repeat split; try assumption. lia.
Qed.

(** C6. For every payload [b] (difficulty between 0 and the digest's 64
    characters) for which some nonce [n] of the [int] range solves the
    puzzle, the loop tries the nonces 0, 1, 2, ... in this order, each
    rendered by [Itoa], and returns the block of the first, hence
    smallest, solving nonce [m], with the digest of that attempt as its
    hash: it takes exactly [m + 1] iterations. *)
Theorem mine_returns_first_nonce (b : Block) (n : Z) :
  (0 <= Difficulty b <= 64)%Z ->
  (0 <= n <= int_max)%Z ->
  solves b n ->
  exists (m : Z) (r : Block),
    (0 <= m <= n)%Z
    /\ solves b m
    /\ (forall j : Z, (0 <= j < m)%Z -> ~ solves b j)
    /\ same_payload r b
    /\ Nonce r = Itoa m
    /\ Hash r = calculateHash r
    /\ zero_prefix (Difficulty b) (Hash r)
    /\ forall fuel : nat,
         ((Z.to_nat m < fuel)%nat -> mine fuel 0 b = Done r)
         /\ ((fuel <= Z.to_nat m)%nat -> mine fuel 0 b = OutOfFuel).
Proof.
  intros Hd Hn Hs.
  destruct (first_hit b Hd (S (Z.to_nat n)))
    as [Hnone|(m & Hm & Hsm & Hleast)].
  - exfalso. apply (Hnone (Z.to_nat n)); [lia|]. now rewrite Z2Nat.id by lia.
  - assert (Hmiss : forall j : Z, (0 <= j < Z.of_nat m)%Z -> ~ solves b j).
    { intros j Hj. rewrite <- (Z2Nat.id j) by lia. apply Hleast. lia. }
    exists (Z.of_nat m), (mined b (Z.of_nat m)).
    split; [lia|]. split; [assumption|]. split; [assumption|].
    split; [split; [|split; [|split; [|split]]]; reflexivity|].
    split; [reflexivity|]. split; [symmetry; apply calculateHash_mined|].
    split; [exact Hsm|].
    intros fuel. rewrite Nat2Z.id.
    apply (mine_run b Hd m 0%Z); try lia; assumption.
Qed.

Lemma mine_returns_first_nonce_witness :
  exists (m : Z) (r : Block),
    (0 <= m <= 2)%Z
    /\ solves sample_candidate m
    /\ (forall j : Z, (0 <= j < m)%Z -> ~ solves sample_candidate j)
    /\ same_payload r sample_candidate
    /\ Nonce r = Itoa m
    /\ Hash r = calculateHash r
    /\ zero_prefix (Difficulty sample_candidate) (Hash r)
    /\ forall fuel : nat,
         ((Z.to_nat m < fuel)%nat -> mine fuel 0 sample_candidate = Done r)
         /\ ((fuel <= Z.to_nat m)%nat
             -> mine fuel 0 sample_candidate = OutOfFuel).
Proof.
  apply (mine_returns_first_nonce sample_candidate 2).
  - vm_compute. split; discriminate.
  - vm_compute. split; discriminate.
  - apply (isHashValid_true_iff (attempt sample_candidate 2) 1).
    + vm_compute. split; discriminate.
    + vm_compute. reflexivity.
Defined.

(** C7. Whatever [generateBlock] returns for a predecessor [p] passes
    [isBlockValid] against [p]: index plus one, previous hash, stored
    hash equal to the digest of the final fields.  [generateBlock]
    never panics, and no answer of the submission handler is the
    "Invalid block" rejection. *)
Theorem generateBlock_passes_isBlockValid :
  (forall (fuel : nat) (now : string) (p : Block)
      (ts : list Transaction) (nb : Block),
      generateBlock fuel now p ts = Done nb ->
      Index nb = int_add (Index p) 1
      /\ PrevHash nb = Hash p
      /\ calculateHash nb = Hash nb
      /\ isBlockValid nb p = true)
  /\ (forall (fuel : nat) (now : string) (p : Block)
        (ts : list Transaction),
        generateBlock fuel now p ts <> Panic)
  /\ (forall (fuel : nat) (now : string) (decoded : option Transaction)
        (chain chain' : list Block) (resp : response),
        handleWriteTransaction fuel now decoded chain
        = Done (resp, chain') ->
        resp <> http_Error "Invalid block" 500).
Proof.
  split; [|split].
  - intros fuel now p ts nb Hrun.
    assert (Hv := generateBlock_isBlockValid _ _ _ _ _ Hrun).
    destruct (proj1 (isBlockValid_linked nb p) Hv) as (Hi & Hp & Hh).
    repeat split; assumption.
  - intros fuel now p ts. unfold generateBlock.
    apply mine_no_panic, candidate_in_range.
  - intros fuel now decoded chain chain' resp.
    destruct decoded as [t|];
      [|cbv beta iota delta [handleWriteTransaction];
        intros H; injection H as <- _; discriminate].
    destruct (isTransactionValid t) eqn:Hv.
    + destruct (tail_block chain) as [old| |] eqn:Ht;
        [|unfold handleWriteTransaction; rewrite Hv, Ht; discriminate ..].
      rewrite (handleWriteTransaction_valid _ _ _ _ _ Hv Ht).
      destruct (generateBlock fuel now old [t]); try discriminate.
      cbv [bind]. intros H. injection H as <- _. discriminate.
    + rewrite (handleWriteTransaction_invalid _ _ _ _ Hv).
      intros H. injection H as <- _. discriminate.
Qed.

Lemma generateBlock_passes_isBlockValid_witness :
  Index (mined sample_candidate 2) = int_add (Index (genesisBlock sample_now)) 1
  /\ PrevHash (mined sample_candidate 2) = Hash (genesisBlock sample_now)
  /\ calculateHash (mined sample_candidate 2)
     = Hash (mined sample_candidate 2)
  /\ isBlockValid (mined sample_candidate 2) (genesisBlock sample_now) = true.
Proof.
  apply (proj1 generateBlock_passes_isBlockValid
           3%nat sample_now (genesisBlock sample_now) [sample_tx]).
  vm_compute. reflexivity.
Defined.



(** C9. A transaction with an empty sender, an empty receiver or an
    amount of at most 0 is answered 400 "Invalid transaction", before
    the chain is read: the chain is returned as it was. *)
Theorem invalid_transaction_rejected (fuel : nat) (now : string)
    (t : Transaction) (chain : list Block) :
  Sender t = "" \/ Receiver t = "" \/ (Amount t <= 0)%Z ->
  handleWriteTransaction fuel now (Some t) chain
  = Done (mkResponse 400 (Text ("Invalid transaction" ++ nl)), chain)
  /\ handleAPIRequests fuel now (mkRequest "POST" (Some t)) chain
     = Done (mkResponse 400 (Text ("Invalid transaction" ++ nl)), chain).
Proof.
  intros Hbad.
  assert (Hv : isTransactionValid t = false).
  { destruct (isTransactionValid t) eqn:E; [|reflexivity].
    apply isTransactionValid_iff in E. destruct E as (Hs & Hr & Ha).
    destruct Hbad as [H|[H|H]]; [now elim Hs|now elim Hr|lia]. }
  split.
  - exact (handleWriteTransaction_invalid fuel now t chain Hv).
  - unfold handleAPIRequests.
    change (String.eqb (Method (mkRequest "POST" (Some t))) "GET")
      with false.
    change (String.eqb (Method (mkRequest "POST" (Some t))) "POST")
      with true.
    exact (handleWriteTransaction_invalid fuel now t chain Hv).
Qed.

Lemma invalid_transaction_rejected_witness :
  handleWriteTransaction 0 sample_now
    (Some (mkTransaction "" "bob" 10)) [genesisBlock sample_now]
  = Done (mkResponse 400 (Text ("Invalid transaction" ++ nl)),
          [genesisBlock sample_now])
  /\ handleAPIRequests 0 sample_now
       (mkRequest "POST" (Some (mkTransaction "" "bob" 10)))
       [genesisBlock sample_now]
     = Done (mkResponse 400 (Text ("Invalid transaction" ++ nl)),
             [genesisBlock sample_now]).
Proof.
  apply (invalid_transaction_rejected 0 sample_now
           (mkTransaction "" "bob" 10) [genesisBlock sample_now]).
  left. reflexivity.
Defined.

(** C10. Two runs of the mining search on blocks that agree on index,
    timestamp, previous hash, transactions and difficulty return the
    same nonce and the same hash, whatever nonce and hash the blocks
    held before and however long each run was allowed to take. *)
Theorem mine_deterministic (b1 b2 r1 r2 : Block) (fuel1 fuel2 : nat) :
  same_payload b1 b2 ->
  mine fuel1 0 b1 = Done r1 ->
  mine fuel2 0 b2 = Done r2 ->
  Nonce r1 = Nonce r2 /\ Hash r1 = Hash r2.
Proof.
  intros Hp H1 H2.
  rewrite (mine_same_payload fuel1 0 b1 b2 Hp) in H1.
  apply (mine_fuel_mono fuel1 (Nat.max fuel1 fuel2)) in H1; [|lia].
  apply (mine_fuel_mono fuel2 (Nat.max fuel1 fuel2)) in H2; [|lia].
  rewrite H1 in H2. injection H2 as ->. split; reflexivity.
Qed.

Lemma mine_deterministic_witness :
  Nonce (mined sample_candidate 2)
  = Nonce (mined (set_Hash "stale" (set_Nonce "7" sample_candidate)) 2)
  /\ Hash (mined sample_candidate 2)
     = Hash (mined (set_Hash "stale" (set_Nonce "7" sample_candidate)) 2).
Proof.
  apply (mine_deterministic
           sample_candidate
           (set_Hash "stale" (set_Nonce "7" sample_candidate))
           _ _ 3 5).
  - vm_compute. repeat split.
  - vm_compute. reflexivity.
  - vm_compute. reflexivity.
Defined.

(** * Beyond the claims: the invariant when requests are served in turn *)

(** X13. As long as requests are served one after the other, every
    ledger state satisfies the invariant: the chain is not empty, its
    first block has index 0, empty [PrevHash] and no transactions, and
    every adjacent pair is linked (index plus one in Go's [int],
    previous hash, digest).  The start-up establishes it and every
    request answered on its own (append, rejection, snapshot read, any
    other method) preserves it. *)
Theorem ledger_invariant_reachable :
  (forall now : string, ledger_invariant (initializeBlockchain now []))
  /\ (forall (fuel : nat) (now : string) (r : request)
        (chain chain' : list Block) (resp : response),
        ledger_invariant chain ->
        handleAPIRequests fuel now r chain = Done (resp, chain') ->
        ledger_invariant chain')
  /\ (forall chain : list Block, reachable chain -> ledger_invariant chain).
Proof.
  split; [exact ledger_invariant_init|].
  split; [exact ledger_invariant_step|].
  induction 1 as [now|chain chain' fuel now r resp _ IH Hrun].
  - apply ledger_invariant_init.
  - exact (ledger_invariant_step _ _ _ _ _ _ IH Hrun).
Qed.

Lemma ledger_invariant_reachable_witness :
  ledger_invariant [genesisBlock sample_now; mined sample_candidate 2].
Proof.
  apply (proj2 (proj2 ledger_invariant_reachable)).
  exact sample_chain_reachable.
Defined.

(** * Beyond the claims: two submissions handled at once *)

(** X1. When two handlers both mine on the same tail and both run their
    [isBlockValid] test before either appends, both tests succeed and
    both blocks are appended: the chain then holds two blocks of the
    same index in a row and the ledger invariant is lost. *)
Theorem interleaved_submissions_break_invariant
    (chain : list Block) (fuel1 fuel2 : nat) (now1 now2 : string)
    (t1 t2 : Transaction) (nb1 nb2 : Block) :
  mine_on_tail fuel1 now1 t1 chain = Done nb1 ->
  mine_on_tail fuel2 now2 t2 chain = Done nb2 ->
  verify_on_tail nb1 chain = Done true
  /\ verify_on_tail nb2 chain = Done true
  /\ Index nb1 = Index nb2
  /\ ~ ledger_invariant (locked_append nb2 (locked_append nb1 chain)).
Proof.
  intros H1 H2.
  destruct (mine_on_tail_Done _ _ _ _ _ H1) as (old & j1 & Ht & ->).
  destruct (mine_on_tail_Done _ _ _ _ _ H2) as (old' & j2 & Ht' & ->).
  rewrite Ht in Ht'. injection Ht' as <-.
  unfold verify_on_tail. rewrite Ht. cbv [bind].
  split; [f_equal; apply isBlockValid_linked, mined_candidate_linked|].
  split; [f_equal; apply isBlockValid_linked, mined_candidate_linked|].
  split; [reflexivity|].
  intros (_ & _ & Hadj). unfold locked_append in Hadj.
  destruct (Hadj (List.length chain)
              (mined (candidate now1 old [t1]) j1)
              (mined (candidate now2 old [t2]) j2)) as (Hi & _).
  - rewrite nth_error_app1 by (rewrite length_app; simpl; lia).
    apply nth_error_snoc.
  - replace (S (List.length chain))
      with (List.length (chain ++ [mined (candidate now1 old [t1]) j1]))
      by (rewrite length_app; simpl; lia).
    apply nth_error_snoc.
  - exact (int_add_1_neq (int_add (Index old) 1) (eq_sym Hi)).
Qed.

Lemma interleaved_submissions_break_invariant_witness :
  verify_on_tail (mined sample_candidate 2) [genesisBlock sample_now]
  = Done true
  /\ verify_on_tail
       (mined (candidate other_now (genesisBlock sample_now) [other_tx]) 1)
       [genesisBlock sample_now]
     = Done true
  /\ Index (mined sample_candidate 2)
     = Index (mined (candidate other_now (genesisBlock sample_now)
                       [other_tx]) 1)
  /\ ~ ledger_invariant
         (locked_append
            (mined (candidate other_now (genesisBlock sample_now)
                      [other_tx]) 1)
            (locked_append (mined sample_candidate 2)
               [genesisBlock sample_now])).
Proof.
  apply (interleaved_submissions_break_invariant
           [genesisBlock sample_now] 3 2 sample_now other_now
           sample_tx other_tx).
  - vm_compute. reflexivity.
  - vm_compute. reflexivity.
Defined.

(** * Beyond the claims: the digest and the difficulty test *)

Lemma land_255_byte (x : Z) : is_byte (Z.land x 255).
Proof.
  unfold is_byte. change 255%Z with (Z.ones 8).
  rewrite Z.land_ones by lia. apply Z.mod_pos_bound. reflexivity.
Qed.

Lemma be_bytes_bytes (width : nat) (x : Z) :
  Forall is_byte (Sha256.be_bytes width x).
Proof.
  unfold Sha256.be_bytes. apply Forall_map, Forall_forall.
  intros i _. apply land_255_byte.
Qed.

Lemma Sum_bytes (msg : list Z) : Forall is_byte (Sha256.Sum msg).
Proof.
  unfold Sha256.Sum, Sha256.output. apply Forall_flat_map, Forall_forall.
  intros x _. apply be_bytes_bytes.
Qed.

Lemma digit_lower_hex (d : Z) :
  (0 <= d < 16)%Z -> lower_hex (Hex.digit d) = true.
Proof.
  intros Hd.
  assert (H : (d = 0 \/ d = 1 \/ d = 2 \/ d = 3 \/ d = 4 \/ d = 5 \/ d = 6
               \/ d = 7 \/ d = 8 \/ d = 9 \/ d = 10 \/ d = 11 \/ d = 12
               \/ d = 13 \/ d = 14 \/ d = 15)%Z) by lia.
  repeat (destruct H as [->|H]; [reflexivity|]). now subst d.
Qed.

Lemma EncodeToString_lower_hex (bs : list Z) :
  Forall is_byte bs ->
  forall (k : nat) (c : ascii),
    String.get k (Hex.EncodeToString bs) = Some c -> lower_hex c = true.
Proof.
  induction 1 as [|b rest Hb _ IH]; intros k c Hget.
  - destruct k; discriminate.
  - unfold is_byte in Hb.
    destruct k as [|[|k]]; cbn [Hex.EncodeToString String.get] in Hget.
    + injection Hget as <-. apply digit_lower_hex.
      rewrite Z.shiftr_div_pow2 by lia. change (2 ^ 4)%Z with 16%Z.
      split; [apply Z.div_pos; lia|apply Z.div_lt_upper_bound; lia].
    + injection Hget as <-. apply digit_lower_hex.
      change 15%Z with (Z.ones 4). rewrite Z.land_ones by lia.
      apply Z.mod_pos_bound. reflexivity.
    + exact (IH k c Hget).
Qed.

(** X2. The digest [calculateHash] returns is always sixty-four
    characters long and each of them is a lowercase hexadecimal digit,
    whatever the block (any index, negative ones included, any strings,
    any number of transactions). *)
Theorem calculateHash_is_lowercase_hex (block : Block) :
  String.length (calculateHash block) = 64%nat
  /\ (forall (k : nat) (c : ascii),
        String.get k (calculateHash block) = Some c -> lower_hex c = true)
  /\ (forall k : nat,
        (k < 64)%nat ->
        exists c : ascii, String.get k (calculateHash block) = Some c).
Proof.
  split; [apply calculateHash_length|]. split.
  - unfold calculateHash, sha256_hex.
    apply EncodeToString_lower_hex, Sum_bytes.
  - intros k Hk.
    destruct (String.get k (calculateHash block)) as [c|] eqn:E;
      [now exists c|].
    exfalso. revert E Hk. rewrite <- (calculateHash_length block).
    generalize (calculateHash block). intros h. revert k.
    induction h as [|a h IH]; intros k E Hk; [simpl in Hk; lia|].
    destruct k as [|k]; [discriminate|].
    simpl in E, Hk. apply (IH k E). lia.
Qed.

(** X3. [isHashValid] panics exactly when the difficulty is negative or
    exceeds the length of the hash (the slice [hash[:difficulty]] is out
    of range).  Otherwise it answers, and its answer is true exactly
    when the first [difficulty] characters of the hash are all ["0"]: in
    particular every hash, the empty one included, passes difficulty 0. *)
Theorem isHashValid_panics_or_decides (hash : string) (d : Z) :
  (isHashValid hash d = Panic
   <-> (d < 0 \/ Z.of_nat (String.length hash) < d)%Z)
  /\ ((0 <= d <= Z.of_nat (String.length hash))%Z ->
      (isHashValid hash d = Done true <-> zero_prefix d hash)
      /\ (isHashValid hash d = Done false <-> ~ zero_prefix d hash))
  /\ isHashValid hash d <> OutOfFuel
  /\ (d = 0%Z -> isHashValid hash d = Done true).
Proof.
  split; [|split; [|split]].
  - unfold isHashValid.
    destruct (Z.ltb_spec d 0); cbv [orb].
    + split; [intros _; now left|reflexivity].
    + destruct (Z.ltb_spec (Z.of_nat (String.length hash)) d).
      * split; [intros _; now right|reflexivity].
      * split; [discriminate|lia].
  - intros Hd. split;
      [now apply isHashValid_true_iff|now apply isHashValid_false_iff].
  - unfold isHashValid. now destruct (_ || _).
  - intros ->. apply isHashValid_true_iff; [lia|].
    intros k Hk. lia.
Qed.

(** Reassociate string concatenations to the right. *)
Ltac string_assoc :=
  repeat first [rewrite append_String_assoc | progress simpl append].

Lemma length_append_string (x y : string) :
  String.length (x ++ y) = (String.length x + String.length y)%nat.
Proof. induction x as [|c x IH]; simpl; [reflexivity|]. now rewrite IH. Qed.

(** X4. The digest does not bind the boundaries of the fields it
    covers, nor the difficulty.  Moving a word from the end of the
    sender to the start of the receiver, or changing the stored
    difficulty, leaves [calculateHash] unchanged and [isBlockValid]
    gives the same answer for the altered block.  Moving text from the
    end of the timestamp to the start of the previous hash leaves
    [calculateHash] unchanged as well; there [isBlockValid] still
    tells the two blocks apart, by its own comparison of [PrevHash]: it
    accepts at most one of them. *)
Theorem digest_does_not_bind_field_boundaries :
  (forall (i : Z) (ts p h n : string) (d amt : Z) (s x r : string)
      (oldBlock : Block),
      let b1 := mkBlock i ts [mkTransaction (s ++ " " ++ x) r amt] p h n d in
      let b2 := mkBlock i ts [mkTransaction s (x ++ " " ++ r) amt] p h n d in
      calculateHash b1 = calculateHash b2
      /\ isBlockValid b1 oldBlock = isBlockValid b2 oldBlock)
  /\ (forall (i : Z) (ts x p h n : string) (d : Z)
        (txs : list Transaction) (oldBlock : Block),
        calculateHash (mkBlock i (ts ++ x) txs p h n d)
        = calculateHash (mkBlock i ts txs (x ++ p) h n d)
        /\ (x <> "" ->
            ~ (isBlockValid (mkBlock i (ts ++ x) txs p h n d) oldBlock
               = true
               /\ isBlockValid (mkBlock i ts txs (x ++ p) h n d) oldBlock
                  = true)))
  /\ (forall (i : Z) (ts p h n : string) (d d' : Z)
        (txs : list Transaction) (oldBlock : Block),
        calculateHash (mkBlock i ts txs p h n d)
        = calculateHash (mkBlock i ts txs p h n d')
        /\ isBlockValid (mkBlock i ts txs p h n d) oldBlock
           = isBlockValid (mkBlock i ts txs p h n d') oldBlock).
Proof.
  split; [|split].
  - intros i ts p h n d amt s x r oldBlock b1 b2.
    assert (Hh : calculateHash b1 = calculateHash b2).
    { unfold calculateHash, b1, b2. f_equal.
      unfold record, Sprint, Sprint_elements, Sprint_Transaction.
      cbn [Index Timestamp PrevHash Transactions Nonce
           Sender Receiver Amount].
      string_assoc. reflexivity. }
    split; [exact Hh|].
    unfold isBlockValid. rewrite Hh. reflexivity.
  - intros i ts x p h n d txs oldBlock. split.
    + unfold calculateHash, record.
      cbn [Index Timestamp PrevHash Transactions Nonce].
      f_equal. string_assoc. reflexivity.
    + intros Hx (H1 & H2).
      apply isBlockValid_linked in H1. apply isBlockValid_linked in H2.
      destruct H1 as (_ & Hp1 & _). destruct H2 as (_ & Hp2 & _).
      cbn [PrevHash] in Hp1, Hp2.
      assert (Hlen : String.length (x ++ p) = String.length p)
        by now rewrite Hp2, <- Hp1.
      rewrite length_append_string in Hlen.
      apply Hx. destruct x; [reflexivity|simpl in Hlen; lia].
  - intros i ts p h n d d' txs oldBlock. split; reflexivity.
Qed.

Lemma digest_does_not_bind_field_boundaries_witness :
  ~ (isBlockValid (mkBlock 1 ("a" ++ "b") [] "c" "" "" 1) zeroBlock = true
     /\ isBlockValid (mkBlock 1 "a" [] ("b" ++ "c") "" "" 1) zeroBlock
        = true).
Proof.
  apply (proj2 (proj1 (proj2 digest_does_not_bind_field_boundaries)
                  1%Z "a" "b" "c" "" "" 1%Z [] zeroBlock)).
  discriminate.
Defined.

(** * Beyond the claims: the ledger over a run *)

Lemma int_wrap_small (z : Z) :
  (int_min <= z <= int_max)%Z -> int_wrap z = z.
Proof.
  unfold int_wrap, int_min, int_max.
  change (2 ^ 63)%Z with 9223372036854775808%Z.
  change (2 ^ 64)%Z with 18446744073709551616%Z.
  intros H. rewrite Z.mod_small; lia.
Qed.

Lemma int_add_wrap (a : Z) : int_add (int_wrap a) 1 = int_wrap (a + 1).
Proof.
  unfold int_add, int_wrap.
  replace ((a + 2 ^ 63) mod 2 ^ 64 - 2 ^ 63 + 1 + 2 ^ 63)%Z
    with ((a + 2 ^ 63) mod 2 ^ 64 + 1)%Z by lia.
  rewrite Zplus_mod_idemp_l. f_equal. f_equal. lia.
Qed.

Lemma reachable_nonempty (chain : list Block) :
  reachable chain -> chain <> [].
Proof.
  induction 1 as [now|chain chain' fuel now r resp _ IH Hrun];
    [discriminate|].
  destruct (handleAPIRequests_cases _ _ _ _ _ _ Hrun)
    as [->|(old & t & j & _ & _ & _ & _ & _ & ->)]; [assumption|].
  intros H. apply app_eq_nil in H. destruct H; discriminate.
Qed.

(** A block of a run sits at the position its index names, up to the
    wrap-around of [int]. *)
Lemma reachable_index_wrap (chain : list Block) :
  reachable chain ->
  forall (i : nat) (b : Block),
    nth_error chain i = Some b -> Index b = int_wrap (Z.of_nat i).
Proof.
  induction 1 as [now|chain chain' fuel now r resp _ IH Hrun];
    intros i b Hb.
  - destruct i as [|i]; [|destruct i; discriminate].
    injection Hb as <-. reflexivity.
  - destruct (handleAPIRequests_cases _ _ _ _ _ _ Hrun)
      as [->|(old & t & j & Ht & _ & _ & _ & _ & ->)]; [exact (IH i b Hb)|].
    destruct (Nat.lt_ge_cases i (List.length chain)) as [Hlt|Hge].
    + rewrite nth_error_app1 in Hb by lia. exact (IH i b Hb).
    + rewrite nth_error_app2 in Hb by lia.
      destruct (i - List.length chain)%nat as [|k] eqn:Hk;
        [|destruct k; discriminate].
      injection Hb as <-.
      destruct (tail_block_Done _ _ Ht) as (Hne & Hlast).
      assert (Hlen : (0 < List.length chain)%nat).
      { destruct chain; [congruence|simpl; lia]. }
      change (Index (mined (candidate now old [t]) j))
        with (int_add (Index old) 1).
      rewrite (IH _ _ Hlast), int_add_wrap. f_equal. lia.
Qed.

(** X5. In every ledger state of a run, the block at position [i] has
    index [i] modulo the wrap-around of [int], and exactly [i] as long
    as the position fits an [int]: indices count the blocks from the
    genesis block's 0 without gaps or repeats. *)
Theorem block_index_is_position (chain : list Block) (i : nat)
    (b : Block) :
  reachable chain ->
  nth_error chain i = Some b ->
  Index b = int_wrap (Z.of_nat i)
  /\ ((Z.of_nat i <= int_max)%Z -> Index b = Z.of_nat i).
Proof.
  intros Hr Hb.
  assert (Hi := reachable_index_wrap chain Hr i b Hb).
  split; [exact Hi|].
  intros Hmax. rewrite Hi. apply int_wrap_small.
  unfold int_min. change (2 ^ 63)%Z with 9223372036854775808%Z. lia.
Qed.

Lemma block_index_is_position_witness :
  Index (mined sample_candidate 2) = int_wrap (Z.of_nat 1)
  /\ ((Z.of_nat 1 <= int_max)%Z
      -> Index (mined sample_candidate 2) = Z.of_nat 1).
Proof.
  apply (block_index_is_position
           [genesisBlock sample_now; mined sample_candidate 2] 1).
  - exact sample_chain_reachable.
  - reflexivity.
Defined.



(** X7. In every ledger state of a run every block has the constant
    difficulty, the genesis block holds no transaction, and every later
    block holds exactly one transaction, which passed
    [isTransactionValid]: no invalid transaction is ever stored. *)
Theorem stored_transactions_are_valid (chain : list Block) (i : nat)
    (b : Block) :
  reachable chain ->
  nth_error chain i = Some b ->
  Difficulty b = difficulty
  /\ (i = 0%nat -> Transactions b = [])
  /\ ((0 < i)%nat ->
      exists t : Transaction,
        Transactions b = [t] /\ isTransactionValid t = true).
Proof.
  intros Hr. revert i b.
  induction Hr as [now|chain chain' fuel now r resp Hr IH Hrun];
    intros i b Hb.
  - destruct i as [|i]; [|destruct i; discriminate].
    injection Hb as <-. split; [reflexivity|].
    split; [reflexivity|lia].
  - destruct (handleAPIRequests_cases _ _ _ _ _ _ Hrun)
      as [->|(old & t & j & Ht & _ & Hv & _ & _ & ->)]; [exact (IH i b Hb)|].
    destruct (Nat.lt_ge_cases i (List.length chain)) as [Hlt|Hge].
    + rewrite nth_error_app1 in Hb by lia. exact (IH i b Hb).
    + rewrite nth_error_app2 in Hb by lia.
      destruct (i - List.length chain)%nat as [|k] eqn:Hk;
        [|destruct k; discriminate].
      injection Hb as <-.
      assert (Hne := reachable_nonempty chain Hr).
      split; [reflexivity|]. split.
      * intros ->. destruct chain; [congruence|simpl in Hge; lia].
      * intros _. now exists t.
Qed.

Lemma stored_transactions_are_valid_witness :
  Difficulty (mined sample_candidate 2) = difficulty
  /\ (1%nat = 0%nat -> Transactions (mined sample_candidate 2) = [])
  /\ ((0 < 1)%nat ->
      exists t : Transaction,
        Transactions (mined sample_candidate 2) = [t]
        /\ isTransactionValid t = true).
Proof.
  apply (stored_transactions_are_valid
           [genesisBlock sample_now; mined sample_candidate 2] 1).
  - exact sample_chain_reachable.
  - reflexivity.
Defined.

(** * Beyond the claims: the handlers *)

(** A valid submission is mining on the tail, then the rest of the
    handler on the chain as it is by then. *)
Lemma handleWriteTransaction_resumes (fuel : nat) (now : string)
    (t : Transaction) (chain : list Block) :
  isTransactionValid t = true ->
  handleWriteTransaction fuel now (Some t) chain
  = (newBlock <- mine_on_tail fuel now t chain ;;
     answer_after_mining newBlock chain).
Proof.
  intros Hv.
  unfold handleWriteTransaction, mine_on_tail, answer_after_mining,
    verify_on_tail, locked_append.
  rewrite Hv. cbv [negb]. destruct (tail_block chain); reflexivity.
Qed.

(** X8. A block mined on a tail that is no longer the tail when the
    handler resumes (another handler appended a block mined on the same
    tail in between) fails the index test of [isBlockValid]: the handler
    answers 500 "Invalid block" and leaves the chain as it found it. *)
Theorem stale_candidate_is_rejected (chain : list Block)
    (fuel1 fuel2 : nat) (now1 now2 : string) (t1 t2 : Transaction)
    (nb1 nb2 : Block) :
  mine_on_tail fuel1 now1 t1 chain = Done nb1 ->
  mine_on_tail fuel2 now2 t2 chain = Done nb2 ->
  verify_on_tail nb1 (locked_append nb2 chain) = Done false
  /\ answer_after_mining nb1 (locked_append nb2 chain)
     = Done (mkResponse 500 (Text ("Invalid block" ++ nl)),
             locked_append nb2 chain).
Proof.
  intros H1 H2.
  destruct (mine_on_tail_Done _ _ _ _ _ H1) as (old & j1 & Ht & ->).
  destruct (mine_on_tail_Done _ _ _ _ _ H2) as (old' & j2 & Ht' & ->).
  rewrite Ht in Ht'. injection Ht' as <-.
  assert (Hv : verify_on_tail (mined (candidate now1 old [t1]) j1)
                 (locked_append (mined (candidate now2 old [t2]) j2) chain)
               = Done false).
  { unfold verify_on_tail, locked_append. rewrite tail_block_app.
    cbv [bind]. f_equal. unfold isBlockValid.
    change (Index (mined (candidate now2 old [t2]) j2))
      with (int_add (Index old) 1).
    change (Index (mined (candidate now1 old [t1]) j1))
      with (int_add (Index old) 1).
    destruct (Z.eqb_spec (int_add (int_add (Index old) 1) 1)
                (int_add (Index old) 1)) as [He|He]; [|reflexivity].
    now elim (int_add_1_neq (int_add (Index old) 1)). }
  split; [exact Hv|].
  unfold answer_after_mining. rewrite Hv. reflexivity.
Qed.

Lemma stale_candidate_is_rejected_witness :
  verify_on_tail (mined sample_candidate 2)
    (locked_append
       (mined (candidate other_now (genesisBlock sample_now) [other_tx]) 1)
       [genesisBlock sample_now])
  = Done false
  /\ answer_after_mining (mined sample_candidate 2)
       (locked_append
          (mined (candidate other_now (genesisBlock sample_now)
                    [other_tx]) 1)
          [genesisBlock sample_now])
     = Done (mkResponse 500 (Text ("Invalid block" ++ nl)),
             locked_append
               (mined (candidate other_now (genesisBlock sample_now)
                         [other_tx]) 1)
               [genesisBlock sample_now]).
Proof.
  apply (stale_candidate_is_rejected
           [genesisBlock sample_now] 3 2 sample_now other_now
           sample_tx other_tx).
  - vm_compute. reflexivity.
  - vm_compute. reflexivity.
Defined.

(** X9. A request panics in exactly one situation: a POST whose body
    decodes to a valid transaction, on an empty chain (the tail access
    [Blockchain[len(Blockchain)-1]] is out of range).  The chain of a
    run is never empty, so no request of a run panics. *)
Theorem handler_panics_only_on_empty_chain :
  (forall (fuel : nat) (now : string) (r : request) (chain : list Block),
      handleAPIRequests fuel now r chain = Panic
      <-> (Method r = "POST"
           /\ (exists t : Transaction,
                 Decoded r = Some t /\ isTransactionValid t = true)
           /\ chain = []))
  /\ (forall (fuel : nat) (now : string) (r : request)
        (chain : list Block),
        reachable chain -> handleAPIRequests fuel now r chain <> Panic).
Proof.
  assert (Hiff : forall (fuel : nat) (now : string) (r : request)
                   (chain : list Block),
             handleAPIRequests fuel now r chain = Panic
             <-> (Method r = "POST"
                  /\ (exists t : Transaction,
                        Decoded r = Some t /\ isTransactionValid t = true)
                  /\ chain = [])).
  { intros fuel now r chain. split.
    - unfold handleAPIRequests, handleGetBlockchain.
      destruct (String.eqb (Method r) "GET"); [discriminate|].
      destruct (String.eqb_spec (Method r) "POST") as [Hm|Hm];
        [|discriminate].
      destruct (Decoded r) as [t|] eqn:Hd; [|discriminate].
      destruct (isTransactionValid t) eqn:Hv.
      + destruct (tail_block chain) as [old| |] eqn:Ht.
        * rewrite (handleWriteTransaction_valid _ _ _ _ _ Hv Ht).
          destruct (generateBlock fuel now old [t]) as [nb| |] eqn:E;
            try discriminate.
          elim (mine_no_panic _ (candidate_in_range now old [t]) fuel 0%Z).
          exact E.
        * intros _. split; [assumption|]. split; [now exists t|].
          unfold tail_block in Ht. destruct chain as [|c chain];
            [reflexivity|].
          destruct (nth_error (c :: chain) (List.length (c :: chain) - 1))
            eqn:En; [discriminate|].
          apply nth_error_None in En. simpl in En. lia.
        * unfold tail_block in Ht.
          destruct (nth_error chain (List.length chain - 1)); discriminate.
      + rewrite (handleWriteTransaction_invalid _ _ _ _ Hv). discriminate.
    - intros (Hm & (t & Hd & Hv) & ->).
      unfold handleAPIRequests. rewrite Hm, Hd.
      change (String.eqb "POST" "GET") with false.
      change (String.eqb "POST" "POST") with true.
      unfold handleWriteTransaction. rewrite Hv. reflexivity. }
  split; [exact Hiff|].
  intros fuel now r chain Hr Hp.
  apply Hiff in Hp. destruct Hp as (_ & _ & He).
  exact (reachable_nonempty chain Hr He).
Qed.

(** X10. The ledger is append-only over a run: however many requests
    are served, the earlier chain is a prefix of the later one, so every
    block stays at its position, unchanged, and the chain never gets
    shorter. *)
Theorem ledger_is_append_only (chain chain' : list Block) :
  serves chain chain' ->
  (exists suffix : list Block, chain' = (chain ++ suffix)%list)
  /\ (forall (i : nat) (b : Block),
        nth_error chain i = Some b -> nth_error chain' i = Some b)
  /\ (List.length chain <= List.length chain')%nat.
Proof.
  intros Hs.
  assert (Hpre : exists suffix : list Block,
             chain' = (chain ++ suffix)%list).
  { induction Hs as [chain|chain chain' chain'' fuel now r resp _ IH Hrun].
    - exists []. now rewrite app_nil_r.
    - destruct IH as (suffix & ->).
      destruct (handleAPIRequests_cases _ _ _ _ _ _ Hrun)
        as [->|(old & t & j & _ & _ & _ & _ & _ & ->)];
        [now exists suffix|].
      exists (suffix ++ [mined (candidate now old [t]) j])%list.
      now rewrite app_assoc. }
  destruct Hpre as (suffix & ->).
  split; [now exists suffix|]. split.
  - intros i b Hb. rewrite nth_error_app1; [assumption|].
    apply nth_error_Some. congruence.
  - rewrite length_app. lia.
Qed.

Lemma ledger_is_append_only_witness :
  (exists suffix : list Block,
      [genesisBlock sample_now; mined sample_candidate 2]
      = ([genesisBlock sample_now] ++ suffix)%list)
  /\ (forall (i : nat) (b : Block),
        nth_error [genesisBlock sample_now] i = Some b ->
        nth_error [genesisBlock sample_now; mined sample_candidate 2] i
        = Some b)
  /\ (List.length [genesisBlock sample_now]
      <= List.length [genesisBlock sample_now; mined sample_candidate 2])%nat.
Proof.
  apply (ledger_is_append_only [genesisBlock sample_now]).
  apply (serves_more _ [genesisBlock sample_now] _ 3 sample_now
           (mkRequest "POST" (Some sample_tx))
           (committed (mined sample_candidate 2))).
  - apply serves_none.
  - vm_compute. reflexivity.
Defined.

(** X11. Every answered request has one of five outcomes: a GET is
    answered 200 with the whole chain; a POST whose body does not decode
    is answered 400 "Invalid request payload"; a POST with an invalid
    transaction 400 "Invalid transaction"; a POST with a valid one 200
    and the chain grows by one block that holds this transaction and the
    timestamp of the request; any other method 405 "Method not allowed".
    Only the fourth changes the chain, and 500 is never answered. *)
Theorem request_outcomes (fuel : nat) (now : string) (r : request)
    (chain chain' : list Block) (resp : response) :
  handleAPIRequests fuel now r chain = Done (resp, chain') ->
  (Method r = "GET"
   /\ resp = mkResponse 200 (Json chain) /\ chain' = chain)
  \/ (Method r = "POST" /\ Decoded r = None
      /\ resp = mkResponse 400 (Text ("Invalid request payload" ++ nl))
      /\ chain' = chain)
  \/ (Method r = "POST"
      /\ (exists t : Transaction,
            Decoded r = Some t /\ isTransactionValid t = false)
      /\ resp = mkResponse 400 (Text ("Invalid transaction" ++ nl))
      /\ chain' = chain)
  \/ (Method r = "POST"
      /\ exists (t : Transaction) (newBlock : Block),
           Decoded r = Some t /\ isTransactionValid t = true
           /\ Transactions newBlock = [t] /\ Timestamp newBlock = now
           /\ resp = mkResponse 200
                       (Text ("Transaction added to Block "
                                ++ Itoa (Index newBlock) ++ nl))
           /\ chain' = (chain ++ [newBlock])%list)
  \/ (Method r <> "GET" /\ Method r <> "POST"
      /\ resp = mkResponse 405 (Text ("Method not allowed" ++ nl))
      /\ chain' = chain).
Proof.
  unfold handleAPIRequests, handleGetBlockchain.
  destruct (String.eqb_spec (Method r) "GET") as [Hg|Hg].
  { intros H. injection H as <- <-. left. repeat split. assumption. }
  destruct (String.eqb_spec (Method r) "POST") as [Hp|Hp].
  2:{ intros H. injection H as <- <-. do 4 right. repeat split; assumption. }
  destruct (Decoded r) as [t|] eqn:Hd.
  2:{ intros H. injection H as <- <-. right. left. repeat split. assumption. }
  destruct (isTransactionValid t) eqn:Hv.
  - destruct (tail_block chain) as [old| |] eqn:Ht;
      [|unfold handleWriteTransaction; rewrite Hv, Ht; discriminate ..].
    rewrite (handleWriteTransaction_valid _ _ _ _ _ Hv Ht).
    destruct (generateBlock fuel now old [t]) as [nb| |] eqn:E;
      try discriminate.
    cbv [bind]. intros H. injection H as <- <-.
    destruct (generateBlock_Done _ _ _ _ _ E) as (j & -> & _).
    do 3 right. left. split; [assumption|].
    exists t, (mined (candidate now old [t]) j). repeat split. assumption.
  - rewrite (handleWriteTransaction_invalid _ _ _ _ Hv).
    intros H. injection H as <- <-. right. right. left.
    split; [assumption|]. split; [now exists t|]. split; reflexivity.
Qed.

Lemma request_outcomes_witness :
  (Method (mkRequest "DELETE" None) = "GET"
   /\ http_Error "Method not allowed" 405
      = mkResponse 200 (Json [genesisBlock sample_now])
   /\ [genesisBlock sample_now] = [genesisBlock sample_now])
  \/ (Method (mkRequest "DELETE" None) = "POST"
      /\ Decoded (mkRequest "DELETE" None) = None
      /\ http_Error "Method not allowed" 405
         = mkResponse 400 (Text ("Invalid request payload" ++ nl))
      /\ [genesisBlock sample_now] = [genesisBlock sample_now])
  \/ (Method (mkRequest "DELETE" None) = "POST"
      /\ (exists t : Transaction,
            Decoded (mkRequest "DELETE" None) = Some t
            /\ isTransactionValid t = false)
      /\ http_Error "Method not allowed" 405
         = mkResponse 400 (Text ("Invalid transaction" ++ nl))
      /\ [genesisBlock sample_now] = [genesisBlock sample_now])
  \/ (Method (mkRequest "DELETE" None) = "POST"
      /\ exists (t : Transaction) (newBlock : Block),
           Decoded (mkRequest "DELETE" None) = Some t
           /\ isTransactionValid t = true
           /\ Transactions newBlock = [t]
           /\ Timestamp newBlock = sample_now
           /\ http_Error "Method not allowed" 405
              = mkResponse 200
                  (Text ("Transaction added to Block "
                           ++ Itoa (Index newBlock) ++ nl))
           /\ [genesisBlock sample_now]
              = ([genesisBlock sample_now] ++ [newBlock])%list)
  \/ (Method (mkRequest "DELETE" None) <> "GET"
      /\ Method (mkRequest "DELETE" None) <> "POST"
      /\ http_Error "Method not allowed" 405
         = mkResponse 405 (Text ("Method not allowed" ++ nl))
      /\ [genesisBlock sample_now] = [genesisBlock sample_now]).
Proof.
  apply (request_outcomes 0 sample_now (mkRequest "DELETE" None)
           [genesisBlock sample_now]).
  reflexivity.
Defined.

(** * Beyond the claims: the nonces of the mining loop *)

Lemma append_nil_r_string (s : string) : s ++ "" = s.
Proof. induction s as [|c s IH]; simpl; [reflexivity|]. now rewrite IH. Qed.

Lemma decimal_value_app (p q : string) (a : Z) :
  decimal_value (p ++ q) a = decimal_value q (decimal_value p a).
Proof.
  revert a. induction p as [|c p IH]; intros a; simpl; [reflexivity|].
  apply IH.
Qed.

Lemma decimal_digit (d : Z) :
  (0 <= d < 10)%Z ->
  Z.of_nat (nat_of_ascii (ascii_of_nat (Z.to_nat (48 + d)))) = (48 + d)%Z.
Proof.
  intros Hd. rewrite nat_ascii_embedding by lia. lia.
Qed.

Lemma decimal_digit_not_minus (d : Z) :
  (0 <= d < 10)%Z -> ascii_of_nat (Z.to_nat (48 + d)) <> "-"%char.
Proof.
  intros Hd H. apply (f_equal nat_of_ascii) in H.
  apply (f_equal Z.of_nat) in H. rewrite decimal_digit in H by lia.
  change (Z.of_nat (nat_of_ascii "-")) with 45%Z in H. lia.
Qed.

(** [digits] writes the decimal digits of [n] in front of [acc]: they
    start with a digit and read back as [n]. *)
Lemma digits_spec (fuel : nat) :
  forall (n : Z) (acc : string),
    (0 <= n < 10 ^ Z.of_nat (S fuel))%Z ->
    exists (c : ascii) (rest : string),
      digits (S fuel) n acc = String c rest ++ acc
      /\ c <> "-"%char
      /\ decimal_value (String c rest) 0 = n.
Proof.
  induction fuel as [|fuel IH]; intros n acc Hn.
  - change (10 ^ Z.of_nat 1)%Z with 10%Z in Hn.
    cbn [digits]. destruct (Z.ltb_spec n 10) as [_|Hge]; [|lia].
    exists (ascii_of_nat (Z.to_nat (48 + n mod 10))), "".
    rewrite Z.mod_small by lia.
    split; [reflexivity|]. split.
    + apply decimal_digit_not_minus. lia.
    + cbn [decimal_value]. rewrite decimal_digit by lia. lia.
  - assert (Hmod := Z.mod_pos_bound n 10 ltac:(lia)).
    assert (Hdiv := Z.div_mod n 10 ltac:(lia)).
    change (digits (S (S fuel)) n acc)
      with (if (n <? 10)%Z
            then String (ascii_of_nat (Z.to_nat (48 + n mod 10))) acc
            else digits (S fuel) (n / 10)
                   (String (ascii_of_nat (Z.to_nat (48 + n mod 10))) acc)).
    destruct (Z.ltb_spec n 10) as [Hlt|Hge].
    + exists (ascii_of_nat (Z.to_nat (48 + n mod 10))), "".
      rewrite Z.mod_small by lia.
      split; [reflexivity|]. split.
      * apply decimal_digit_not_minus. lia.
      * cbn [decimal_value]. rewrite decimal_digit by lia. lia.
    + assert (Hpow : (10 ^ Z.of_nat (S (S fuel))
                      = 10 * 10 ^ Z.of_nat (S fuel))%Z).
      { rewrite (Nat2Z.inj_succ (S fuel)), Z.pow_succ_r by lia.
        reflexivity. }
      destruct (IH (n / 10)%Z
                  (String (ascii_of_nat (Z.to_nat (48 + n mod 10))) acc))
        as (c & rest & Heq & Hc & Hval).
      { split; [apply Z.div_pos; lia|].
        apply Z.div_lt_upper_bound; lia. }
      exists c, (rest ++ String (ascii_of_nat (Z.to_nat (48 + n mod 10))) "").
      split; [|split; [exact Hc|]].
      * rewrite Heq. cbn [append]. f_equal.
        rewrite append_String_assoc. reflexivity.
      * change (String c
                  (rest ++ String (ascii_of_nat (Z.to_nat (48 + n mod 10))) ""))
          with (String c rest
                  ++ String (ascii_of_nat (Z.to_nat (48 + n mod 10))) "").
        rewrite decimal_value_app, Hval. cbn [decimal_value].
        rewrite decimal_digit by lia. lia.
Qed.

(** Reading back what [Itoa] writes gives the number, for every [int]. *)
Lemma Atoi_Itoa (n : Z) :
  (int_min <= n <= int_max)%Z -> Atoi (Itoa n) = n.
Proof.
  unfold int_min, int_max. change (2 ^ 63)%Z with 9223372036854775808%Z.
  intros Hn. unfold Itoa.
  assert (Hpow : (9223372036854775808 < 10 ^ Z.of_nat 20)%Z) by reflexivity.
  destruct (Z.ltb_spec n 0) as [Hneg|Hpos].
  - destruct (digits_spec 19 (- n) "" ltac:(lia))
      as (c & rest & Heq & _ & Hval).
    rewrite Heq, append_nil_r_string. unfold Atoi. rewrite Hval. lia.
  - destruct (digits_spec 19 n "" ltac:(lia))
      as (c & rest & Heq & Hc & Hval).
    rewrite Heq, append_nil_r_string. unfold Atoi.
    destruct (Ascii.eqb_spec c "-") as [->|Hne]; [now elim Hc|].
    destruct c as [[] [] [] [] [] [] [] []]; try exact Hval.
    now elim Hne.
Qed.

Lemma append_inj_l (p x y : string) : p ++ x = p ++ y -> x = y.
Proof.
  induction p as [|c p IH]; simpl; [trivial|].
  intros H. injection H as H. exact (IH H).
Qed.

(** X12. The mining loop never hashes the same string twice: two
    different counter values (any two [int]s) are rendered by [Itoa] as
    different nonces, and the strings handed to the digest for them
    differ. *)
Theorem nonces_give_distinct_records (b : Block) (m n : Z) :
  (int_min <= m <= int_max)%Z ->
  (int_min <= n <= int_max)%Z ->
  m <> n ->
  Itoa m <> Itoa n
  /\ Nonce (set_Nonce (Itoa m) b) <> Nonce (set_Nonce (Itoa n) b)
  /\ record (set_Nonce (Itoa m) b) <> record (set_Nonce (Itoa n) b).
Proof.
  intros Hm Hn Hne.
  assert (Hi : Itoa m <> Itoa n).
  { intros H. apply Hne.
    rewrite <- (Atoi_Itoa m Hm), <- (Atoi_Itoa n Hn). now rewrite H. }
  split; [exact Hi|]. split; [exact Hi|].
  unfold record. cbn [Index Timestamp PrevHash Transactions Nonce set_Nonce].
  intros H. apply Hi.
  now do 4 apply append_inj_l in H.
Qed.

Lemma nonces_give_distinct_records_witness :
  Itoa 0 <> Itoa 1
  /\ Nonce (set_Nonce (Itoa 0) sample_candidate)
     <> Nonce (set_Nonce (Itoa 1) sample_candidate)
  /\ record (set_Nonce (Itoa 0) sample_candidate)
     <> record (set_Nonce (Itoa 1) sample_candidate).
Proof.
  apply (nonces_give_distinct_records sample_candidate 0 1).
  - vm_compute. split; discriminate.
  - vm_compute. split; discriminate.
  - discriminate.
Defined.
